(** * MoodySpotify backend: token lifecycle, ingestion pipeline, API client

    A shallow embedding of [app.py], [backend/models.py],
    [backend/spotify_client.py] and the root-level duplicate
    [spotify_client.py], with the properties of the written specification
    stated and settled against it.

    Conventions.
    - Python values that arrive as JSON are values of [pyval]; JSON numbers
      are integers (no floating point is modelled).
    - A Python [str] is a [string] whose characters are code points below
      256.
    - A naive [datetime] is its distance from [datetime.min] in
      microseconds, a [timedelta] a count of microseconds; building a
      [timedelta] and adding it to a [datetime] raise [OverflowError]
      outside the ranges of the two types. The system clock never reads
      a time in the last minute of the year 9999.
    - Every [User] object a handler works on is attached to the handler's
      session: that is how the handlers obtain them, and nothing in the
      code detaches one.
    - Python exceptions are values of [exn]; a computation that may raise
      returns an [outcome]. *)

From Stdlib Require Import ZArith List String Ascii Bool Lia Arith.
Import ListNotations.
Open Scope string_scope.
Open Scope Z_scope.

(** ** Python strings *)

Module PyStr.

(** [str.isspace] on a single code point below 256: TAB, LF, VT, FF, CR,
    the separators FS GS RS US, space, NEL and NBSP. *)
Definition isspace (c : ascii) : bool :=
  let n := nat_of_ascii c in
  ((9 <=? n) && (n <=? 13))%nat || ((28 <=? n) && (n <=? 32))%nat
  || (n =? 133)%nat || (n =? 160)%nat.

Fixpoint lstrip (s : string) : string :=
  match s with
  | String c r => if isspace c then lstrip r else s
  | EmptyString => EmptyString
  end.

Fixpoint rev_onto (s acc : string) : string :=
  match s with
  | EmptyString => acc
  | String c r => rev_onto r (String c acc)
  end.

Definition rev (s : string) : string := rev_onto s EmptyString.

Definition rstrip (s : string) : string := rev (lstrip (rev s)).

(** [s.strip()] *)
Definition strip (s : string) : string := rstrip (lstrip s).

(** [s.startswith(p)] *)
Definition startswith (p s : string) : bool := String.prefix p s.

(** [p in s] for strings *)
Fixpoint contains (p s : string) : bool :=
  String.prefix p s ||
  match s with
  | EmptyString => false
  | String _ r => contains p r
  end.

(** [s.split(sep)] for a one-character separator; never the empty list. *)
Fixpoint split (sep : ascii) (s : string) : list string :=
  match s with
  | EmptyString => [EmptyString]
  | String c r =>
      if Ascii.eqb c sep then EmptyString :: split sep r
      else match split sep r with
           | p :: ps => String c p :: ps
           | [] => [String c EmptyString]
           end
  end.

(** [l[-1]] and [l[0]] on the result of a split (never empty). *)
Definition last_item (l : list string) : string := List.last l EmptyString.
Definition first_item (l : list string) : string := List.hd EmptyString l.

(** [sep.join(l)] *)
Fixpoint join (sep : string) (l : list string) : string :=
  match l with
  | [] => EmptyString
  | [x] => x
  | x :: r => x ++ sep ++ join sep r
  end.





End PyStr.

(** ** Identifier normalisation ([backend/spotify_client.py]) *)

(** [_normalize_track_id(t)]: [None] for a falsy argument, otherwise the raw
    id. *)
Definition _normalize_track_id (t : string) : option string :=
  if String.eqb t "" then None
  else
    let t := PyStr.strip t in
    if PyStr.startswith "spotify:" t then
      Some (PyStr.last_item (PyStr.split ":" t))
    else if PyStr.contains "open.spotify.com" t then
      Some (PyStr.first_item (PyStr.split "?" (PyStr.last_item (PyStr.split "/" t))))
    else Some t.

(** *** The normalisation as the specification words it

    The specification speaks of three kinds of input, "a raw id, a
    URI-style identifier, or a web link", and gives one example of each.
    The definitions below follow the structure of the two structured
    kinds, not the tests of the code. *)





(** ** Python values, exceptions, HTTP exchanges *)

(** A value decoded from JSON (or built by the code from such values). A
    [PDict] lists the items of a dict in order, keys distinct. *)
#[local] Set Warnings "-register-all".
Inductive pyval : Type :=
| PNone
| PBool (b : bool)
| PInt (z : Z)
| PStr (s : string)
| PList (l : list pyval)
| PDict (d : list (string * pyval)).

(** The [Authorization] header: [f"Bearer {access_token}"] for resource
    calls, [Basic base64(client_id:client_secret)] for the token endpoint. *)
Inductive authorization : Type :=
| Bearer (access_token : pyval)
| Basic (client_id client_secret : string).

Inductive http_method : Type := GET | POST.

(** One outbound call of [requests.get] / [requests.post]; [rq_fields] are
    the query parameters of a GET ([params=None] is the empty list) or the
    form data of a POST. *)
Record Request : Type := mkRequest {
  rq_method : http_method;
  rq_url : string;
  rq_auth : authorization;
  rq_fields : list (string * pyval)
}.

(** A [requests.Response]: [json_body] is [None] when the body is not JSON
    ([r.json()] raises [ValueError]). *)
Record Response : Type := mkResponse {
  status_code : Z;
  url : string;
  text : string;
  json_body : option pyval
}.

(** The text of a [requests.HTTPError]: the f-string of [api_get]
    ([f"{r.status_code} Error calling {r.url}: {err_body}"]) kept as its
    three parts, or the one [raise_for_status] builds. *)
Inductive http_error_text : Type :=
| ApiGetText (status : Z) (at_url : string) (err_body : pyval)
| RaiseForStatusText (status : Z) (at_url : string).

Inductive exn : Type :=
| HTTPException (status : Z) (detail : string)   (* fastapi.HTTPException *)
| HTTPError (message : http_error_text) (response : Response) (* requests.HTTPError(..., response=r) *)
| ConnectionError                                (* requests.get / post itself raising *)
| PlainException (message : string)              (* Exception("...") *)
| KeyError (key : string)
| TypeError
| AttributeError
| ValueError
| IntegrityError                                 (* NOT NULL violated at flush *)
| StatementError                                 (* a value the SQL layer cannot bind as text *)
| InvalidRequestError                            (* Session.add of an object of another session *)
| OverflowError.                                 (* a timedelta or datetime out of range *)

Inductive outcome (A : Type) : Type :=
| Ok (a : A)
| Raise (e : exn).
Arguments Ok {A} a.
Arguments Raise {A} e.

(** ** Storage ([backend/models.py]) *)

(** String and Text columns hold a [pyval]: [PNone] is NULL, [PStr] a text.
    DateTime columns hold [option Z]; primary keys are integers. *)
Record User : Type := mkUser {
  u_id : Z;
  spotify_user_id : pyval;
  display_name : pyval;
  access_token : pyval;
  refresh_token : pyval;
  token_expires : option Z
}.

Record Track : Type := mkTrack {
  t_id : Z;
  spotify_track_id : pyval;
  name : pyval;
  artist : pyval;
  album : pyval;
  audio_features : pyval
}.

Record UserTopTrack : Type := mkUserTopTrack {
  utt_id : Z;
  user_id : Z;
  track_id : Z;
  rank : Z;
  retrieved_at : Z
}.

Record DB : Type := mkDB {
  users : list User;
  tracks : list Track;
  user_top_tracks : list UserTopTrack
}.

(** What the outside world does: the answer to each HTTP call (given the
    calls sent before it), the system clock at each successive call of
    [datetime.utcnow()], Python's [int()] on a [str], and the environment
    variables read at import. *)
Record Env : Type := mkEnv {
  send : list Request -> Request -> outcome Response;
  clock : nat -> Z;
  int_of_str : string -> option Z;
  CLIENT_ID : string;
  CLIENT_SECRET : string;
  REDIRECT_URI : string
}.

(** The state a request handler runs in: the committed database [db], the
    view of the handler's session [sess] (committed rows plus pending
    changes), the primary keys of the user and track rows that are new or
    changed in the session (the rows its next flush writes), the HTTP calls
    sent so far and the number of clock readings so far. *)
Record World : Type := mkWorld {
  db : DB;
  sess : DB;
  dirty_users : list Z;
  dirty_tracks : list Z;
  sent : list Request;
  ticks : nat
}.

(** ** The monad of handlers: state passing with exceptions *)

Definition M (A : Type) : Type := World -> outcome A * World.

Definition ret {A} (a : A) : M A := fun w => (Ok a, w).
Definition raise {A} (e : exn) : M A := fun w => (Raise e, w).
Definition bind {A B} (m : M A) (k : A -> M B) : M B :=
  fun w => match m w with
           | (Ok a, w') => k a w'
           | (Raise e, w') => (Raise e, w')
           end.
Definition lift {A} (o : outcome A) : M A := fun w => (o, w).

(** [try: m except Exception: h] *)
Definition try_except {A} (m : M A) (h : exn -> M A) : M A :=
  fun w => match m w with
           | (Ok a, w') => (Ok a, w')
           | (Raise e, w') => h e w'
           end.

Declare Scope py_scope.
Delimit Scope py_scope with py.
Notation "x <- m ;; k" := (bind m (fun x => k))
  (at level 61, m at next level, right associativity) : py_scope.
Notation "m ;;; k" := (bind m (fun _ => k))
  (at level 61, right associativity) : py_scope.
Open Scope py_scope.

(** [for i, x in enumerate(l, start): body(i, x)] *)
Fixpoint for_enumerate {A} (start : Z) (l : list A) (body : Z -> A -> M unit) : M unit :=
  match l with
  | [] => ret tt
  | x :: r => body start x ;;; for_enumerate (start + 1) r body
  end.

(** [for x in l: body(x)] *)
Fixpoint for_each {A} (l : list A) (body : A -> M unit) : M unit :=
  match l with
  | [] => ret tt
  | x :: r => body x ;;; for_each r body
  end.

(** [[f(x) for x in l]] with an [f] that may raise *)
Fixpoint comprehension {A B} (l : list A) (f : A -> M B) : M (list B) :=
  match l with
  | [] => ret []
  | x :: r => y <- f x ;; ys <- comprehension r f ;; ret (y :: ys)
  end.

(** ** Python operations on values *)

Module Py.

(** [bool(v)] *)
Definition truthy (v : pyval) : bool :=
  match v with
  | PNone => false
  | PBool b => b
  | PInt z => negb (z =? 0)
  | PStr s => negb (String.eqb s "")
  | PList l => match l with [] => false | _ :: _ => true end
  | PDict d => match d with [] => false | _ :: _ => true end
  end.

Fixpoint lookup (k : string) (d : list (string * pyval)) : option pyval :=
  match d with
  | [] => None
  | (k', v) :: r => if String.eqb k' k then Some v else lookup k r
  end.

(** [v[k]] with a string key *)
Definition getitem (v : pyval) (k : string) : outcome pyval :=
  match v with
  | PDict d => match lookup k d with
               | Some x => Ok x
               | None => Raise (KeyError k)
               end
  | _ => Raise TypeError
  end.

(** [v.get(k, default)] *)
Definition get (v : pyval) (k : string) (default : pyval) : outcome pyval :=
  match v with
  | PDict d => match lookup k d with
               | Some x => Ok x
               | None => Ok default
               end
  | _ => Raise AttributeError
  end.

(** [k in v] with a string [k] *)
Definition contains (k : string) (v : pyval) : outcome bool :=
  match v with
  | PDict d => Ok (match lookup k d with Some _ => true | None => false end)
  | PList l => Ok (existsb (fun x => match x with PStr s => String.eqb k s | _ => false end) l)
  | PStr s => Ok (PyStr.contains k s)
  | _ => Raise TypeError
  end.

(** The items [for x in v] visits. *)
Definition iter (v : pyval) : outcome (list pyval) :=
  match v with
  | PList l => Ok l
  | PDict d => Ok (map (fun kv => PStr (fst kv)) d)
  | PStr s => Ok (map (fun c => PStr (String c EmptyString)) (list_ascii_of_string s))
  | _ => Raise TypeError
  end.

(** [len(v)] *)
Definition len (v : pyval) : outcome Z :=
  match v with
  | PList l => Ok (Z.of_nat (List.length l))
  | PDict d => Ok (Z.of_nat (List.length d))
  | PStr s => Ok (Z.of_nat (String.length s))
  | _ => Raise TypeError
  end.

(** [int(v)]; [int] on a [str] is the environment's. *)
Definition int (env : Env) (v : pyval) : outcome Z :=
  match v with
  | PInt z => Ok z
  | PBool b => Ok (if b then 1 else 0)
  | PStr s => match int_of_str env s with
              | Some z => Ok z
              | None => Raise ValueError
              end
  | _ => Raise TypeError
  end.

(** [sep.join(l)] on a list of values: every one must be a [str]. *)
Fixpoint strings (l : list pyval) : outcome (list string) :=
  match l with
  | [] => Ok []
  | PStr s :: r => match strings r with
                   | Ok ss => Ok (s :: ss)
                   | Raise e => Raise e
                   end
  | _ :: _ => Raise TypeError
  end.

Definition join (sep : string) (l : list pyval) : outcome string :=
  match strings l with
  | Ok ss => Ok (PyStr.join sep ss)
  | Raise e => Raise e
  end.

(** [a or b] *)
Definition or (a b : pyval) : pyval := if truthy a then a else b.

(** [datetime.max], 9999-12-31 23:59:59.999999, and the largest number
    of days of a [timedelta]. *)
Definition DATETIME_MAX : Z := 3652059 * 86400000000 - 1.
Definition MAX_DELTA_DAYS : Z := 999999999.

(** [timedelta(seconds=n)] in microseconds: [OverflowError] when the days
    of the value exceed [MAX_DELTA_DAYS] in magnitude. *)
Definition timedelta_seconds (n : Z) : outcome Z :=
  let days := n / 86400 in
  if (- MAX_DELTA_DAYS <=? days) && (days <=? MAX_DELTA_DAYS) then Ok (n * 1000000)
  else Raise OverflowError.

(** [t + d] for a datetime [t] and a timedelta [d]: [OverflowError] when
    the year of the sum is not one of 1..9999. *)
Definition datetime_add (t d : Z) : outcome Z :=
  if (0 <=? t + d) && (t + d <=? DATETIME_MAX) then Ok (t + d)
  else Raise OverflowError.

End Py.

(** ** The SQL layer *)

Module Sql.

(** What a String or Text column accepts at flush: a text, or NULL when
    the column is nullable. A value of another type (a number, a list or
    an object where the provider's JSON should have a string) is outside
    the model, which refuses it; SQLite itself would store a number as
    its text. *)
Definition check_text (nullable : bool) (v : pyval) : option exn :=
  match v with
  | PStr _ => None
  | PNone => if nullable then None else Some IntegrityError
  | _ => Some StatementError
  end.

Fixpoint first_error (l : list (option exn)) : option exn :=
  match l with
  | [] => None
  | Some e :: _ => Some e
  | None :: r => first_error r
  end.

(** The column declarations of [backend/models.py]. *)
Definition check_user (u : User) : option exn :=
  first_error [ check_text true (spotify_user_id u);
                check_text true (display_name u);
                check_text false (access_token u);
                check_text false (refresh_token u) ].

Definition check_track (t : Track) : option exn :=
  first_error [ check_text true (spotify_track_id t);
                check_text false (name t);
                check_text true (artist t);
                check_text true (album t) ].

(** [Column == value] as a filter: NULL matches [None] (the ORM renders
    [IS NULL]), a text matches the same text. *)
Definition eq (col param : pyval) : bool :=
  match col, param with
  | PStr a, PStr b => String.eqb a b
  | PNone, PNone => true
  | _, _ => false
  end.

(** The next value of an integer primary key: one above the largest. *)
Definition next_pk (ids : list Z) : Z := 1 + fold_right Z.max 0 ids.

Definition replace_user (u : User) (l : list User) : list User :=
  map (fun r => if u_id r =? u_id u then u else r) l.

Definition replace_track (t : Track) (l : list Track) : list Track :=
  map (fun r => if t_id r =? t_id t then t else r) l.

Definition mem (k : Z) (l : list Z) : bool := existsb (Z.eqb k) l.

(** The first violation among the rows a flush of the session writes. *)
Definition pending_error (w : World) : option exn :=
  first_error
    (map check_user (filter (fun u => mem (u_id u) (dirty_users w)) (users (sess w)))
     ++ map check_track (filter (fun t => mem (t_id t) (dirty_tracks w)) (tracks (sess w)))).

Definition set_sess (f : DB -> DB) : M unit :=
  fun w => (Ok tt, mkWorld (db w) (f (sess w)) (dirty_users w) (dirty_tracks w) (sent w) (ticks w)).

Definition mark_user (k : Z) : M unit :=
  fun w => (Ok tt, mkWorld (db w) (sess w) (k :: dirty_users w) (dirty_tracks w) (sent w) (ticks w)).

Definition mark_track (k : Z) : M unit :=
  fun w => (Ok tt, mkWorld (db w) (sess w) (dirty_users w) (k :: dirty_tracks w) (sent w) (ticks w)).

(** [db = next(get_db())] at the head of a handler: a fresh session. *)
Definition get_db : M unit :=
  fun w => (Ok tt, mkWorld (db w) (db w) [] [] (sent w) (ticks w)).

(** The flush a query or a commit starts with. *)
Definition flush : M unit :=
  fun w => match pending_error w with
           | Some e => (Raise e, w)
           | None => (Ok tt, w)
           end.

(** [db.commit()] *)
Definition commit : M unit :=
  flush ;;;
  fun w => (Ok tt, mkWorld (sess w) (sess w) [] [] (sent w) (ticks w)).

(** A filter value the SQL layer binds: [None] or a [str]; any other
    value is outside the model, as for [check_text]. *)
Definition bindable (v : pyval) : M unit :=
  match v with
  | PNone | PStr _ => ret tt
  | _ => raise StatementError
  end.

(** [db.query(User).filter(User.spotify_user_id == v).first()] *)
Definition first_user (v : pyval) : M (option User) :=
  flush ;;; bindable v ;;;
  fun w => (Ok (find (fun u => eq (spotify_user_id u) v) (users (sess w))), w).

(** [db.query(Track).filter(Track.spotify_track_id == v).first()] *)
Definition first_track (v : pyval) : M (option Track) :=
  flush ;;; bindable v ;;;
  fun w => (Ok (find (fun t => eq (spotify_track_id t) v) (tracks (sess w))), w).

(** Assigning attributes of a loaded [User] / [Track]: the object is the
    session's row with that primary key. *)
Definition assign_user (u : User) : M unit :=
  set_sess (fun d => mkDB (replace_user u (users d)) (tracks d) (user_top_tracks d)) ;;;
  mark_user (u_id u).

Definition assign_track (t : Track) : M unit :=
  set_sess (fun d => mkDB (users d) (replace_track t (tracks d)) (user_top_tracks d)) ;;;
  mark_track (t_id t).

(** [db.add(User(...))], [db.add(Track(...))], [db.add(UserTopTrack(...))]
    for a new object: the row enters the session with the next primary
    key, which the result carries. *)
Definition add_user (mk : Z -> User) : M User :=
  fun w =>
    let u := mk (next_pk (map u_id (users (sess w)))) in
    (set_sess (fun d => mkDB (users d ++ [u]) (tracks d) (user_top_tracks d)) ;;;
     mark_user (u_id u) ;;; ret u) w.

Definition add_track (mk : Z -> Track) : M Track :=
  fun w =>
    let t := mk (next_pk (map t_id (tracks (sess w)))) in
    (set_sess (fun d => mkDB (users d) (tracks d ++ [t]) (user_top_tracks d)) ;;;
     mark_track (t_id t) ;;; ret t) w.

Definition add_user_top_track (mk : Z -> UserTopTrack) : M unit :=
  fun w =>
    let r := mk (next_pk (map utt_id (user_top_tracks (sess w)))) in
    set_sess (fun d => mkDB (users d) (tracks d) (user_top_tracks d ++ [r])) w.

(** [db = next(get_db()); db.add(db_user); db.commit()] at the end of the
    refresh path. [db_user] is an object of the handler's session, which
    is still open, and [Session.add] refuses an object that is attached
    to another session: it raises [InvalidRequestError] ("Object ... is
    already attached to session ..."). The commit of the second session is
    not reached, and nothing was pending in it. *)
Definition add_in_second_session (u : User) : M unit := raise InvalidRequestError.

End Sql.

(** The reading of the [n]-th call of [datetime.utcnow()]: a datetime, and
    one that is not in the last minute of the year 9999; the clock of the
    environment is brought into that range. *)
Definition utcnow_at (env : Env) (n : nat) : Z :=
  Z.max 0 (Z.min (clock env n) (Py.DATETIME_MAX - 60 * 1000000)).

(** [datetime.utcnow()] *)
Definition utcnow (env : Env) : M Z :=
  fun w => (Ok (utcnow_at env (ticks w)),
            mkWorld (db w) (sess w) (dirty_users w) (dirty_tracks w) (sent w) (S (ticks w))).

(** [requests.get(...)] / [requests.post(...)] *)
Definition requests_send (env : Env) (rq : Request) : M Response :=
  fun w => (send env (sent w) rq,
            mkWorld (db w) (sess w) (dirty_users w) (dirty_tracks w) (sent w ++ [rq]) (ticks w)).

(** [r.ok]: [raise_for_status] would not raise. *)
Definition ok (r : Response) : bool :=
  negb ((400 <=? status_code r) && (status_code r <? 600)).

(** [r.raise_for_status()] *)
Definition raise_for_status (r : Response) : M unit :=
  if ok r then ret tt
  else raise (HTTPError (RaiseForStatusText (status_code r) (url r)) r).

(** [r.json()] *)
Definition json (r : Response) : M pyval :=
  match json_body r with
  | Some v => ret v
  | None => raise ValueError
  end.

(** ** [backend/spotify_client.py]: the client the application imports *)

Module backend.
Module spotify_client.
Section Client.

Variable env : Env.

Definition SPOTIFY_TOKEN_URL : string := "https://accounts.spotify.com/api/token".
Definition SPOTIFY_API_BASE : string := "https://api.spotify.com/v1".

Definition _basic_auth_header : authorization :=
  Basic (CLIENT_ID env) (CLIENT_SECRET env).

Definition exchange_code_for_token (code : string) : M pyval :=
  let data := [ ("grant_type", PStr "authorization_code");
                ("code", PStr code);
                ("redirect_uri", PStr (REDIRECT_URI env)) ] in
  resp <- requests_send env (mkRequest POST SPOTIFY_TOKEN_URL _basic_auth_header data) ;;
  raise_for_status resp ;;;
  json resp.

Definition refresh_access_token (refresh_token : pyval) : M pyval :=
  let data := [ ("grant_type", PStr "refresh_token");
                ("refresh_token", refresh_token) ] in
  resp <- requests_send env (mkRequest POST SPOTIFY_TOKEN_URL _basic_auth_header data) ;;
  raise_for_status resp ;;;
  json resp.

(** [api_get(path, access_token, params)]; the debug prints have no
    effect on the result. *)
Definition api_get (path : string) (access_token : pyval)
           (params : list (string * pyval)) : M pyval :=
  let path := if PyStr.startswith "/" path then path else "/" ++ path in
  r <- requests_send env (mkRequest GET (SPOTIFY_API_BASE ++ path) (Bearer access_token) params) ;;
  if negb (ok r) then
    let err_body := match json_body r with
                    | Some v => v
                    | None => PStr (text r)
                    end in
    raise (HTTPError (ApiGetText (status_code r) (url r) err_body) r)
  else
    match json_body r with
    | Some v => ret v
    | None => ret (PStr (text r))
    end.

Definition get_user_profile (access_token : pyval) : M pyval :=
  api_get "/me" access_token [].

Definition get_user_top_tracks (access_token : pyval) (limit : Z) : M pyval :=
  api_get "/me/top/tracks" access_token
          [ ("limit", PInt limit); ("time_range", PStr "medium_term") ].

(** [get_audio_features]: whatever is raised inside the [try] is caught
    and [{"audio_features": None}] is returned. *)
Definition get_audio_features (access_token : pyval) (track_ids : list pyval) : M pyval :=
  try_except
    (ids <- lift (Py.join "," track_ids) ;;
     api_get "/audio-features" access_token [ ("ids", PStr ids) ])
    (fun _ => ret (PDict [ ("audio_features", PNone) ])).

End Client.
End spotify_client.
End backend.

(** ** [spotify_client.py] at the root: the earlier copy of the client *)

Module spotify_client.
Section Client.

Variable env : Env.

Definition SPOTIFY_API_BASE : string := "https://api.spotify.com/v1".

Definition api_get (path : string) (access_token : pyval)
           (params : list (string * pyval)) : M pyval :=
  r <- requests_send env (mkRequest GET (SPOTIFY_API_BASE ++ path) (Bearer access_token) params) ;;
  if status_code r =? 401 then
    raise (PlainException "Unauthorized - token may be expired")
  else
    raise_for_status r ;;;
    json r.

Definition get_user_profile (access_token : pyval) : M pyval :=
  api_get "/me" access_token [].

Definition get_user_top_tracks (access_token : pyval) (limit : Z) : M pyval :=
  api_get "/me/top/tracks" access_token
          [ ("limit", PInt limit); ("time_range", PStr "medium_term") ].

Definition get_audio_features (access_token : pyval) (track_ids : list pyval) : M pyval :=
  ids <- lift (Py.join "," track_ids) ;;
  api_get "/audio-features" access_token [ ("ids", PStr ids) ].

End Client.
End spotify_client.

(** ** [app.py]: the handlers *)

Module app.
Section Handlers.

Variable env : Env.

Definition with_access_token (u : User) (v : pyval) : User :=
  mkUser (u_id u) (spotify_user_id u) (display_name u) v (refresh_token u) (token_expires u).
Definition with_refresh_token (u : User) (v : pyval) : User :=
  mkUser (u_id u) (spotify_user_id u) (display_name u) (access_token u) v (token_expires u).
Definition with_token_expires (u : User) (e : option Z) : User :=
  mkUser (u_id u) (spotify_user_id u) (display_name u) (access_token u) (refresh_token u) e.
Definition with_audio_features (t : Track) (v : pyval) : Track :=
  mkTrack (t_id t) (spotify_track_id t) (name t) (artist t) (album t) v.

(** The test of line 73; [or] does not read the clock when the expiry is
    [None]. *)
Definition token_is_stale (db_user : User) : M bool :=
  match token_expires db_user with
  | None => ret true
  | Some e =>
      now <- utcnow env ;;
      margin <- lift (Py.timedelta_seconds 60) ;;
      limit <- lift (Py.datetime_add now margin) ;;
      ret (e <=? limit)
  end.

(** Lines 74-85: the body of the [if], and the [return] after it. *)
Definition refresh_and_persist (db_user : User) : M pyval :=
  token_json <- backend.spotify_client.refresh_access_token env (refresh_token db_user) ;;
  access_token' <- lift (Py.get token_json "access_token" PNone) ;;
  expires_in <- lift (Py.get token_json "expires_in" (PInt 3600)) ;;
  let db_user := with_access_token db_user access_token' in
  Sql.assign_user db_user ;;;
  now <- utcnow env ;;
  seconds <- lift (Py.int env expires_in) ;;
  lifetime <- lift (Py.timedelta_seconds seconds) ;;
  expiry <- lift (Py.datetime_add now lifetime) ;;
  let db_user := with_token_expires db_user (Some expiry) in
  Sql.assign_user db_user ;;;
  has_refresh <- lift (Py.contains "refresh_token" token_json) ;;
  db_user <- (if has_refresh : bool then
                new_refresh <- lift (Py.getitem token_json "refresh_token") ;;
                let db_user := with_refresh_token db_user new_refresh in
                Sql.assign_user db_user ;;; ret db_user
              else ret db_user) ;;
  Sql.add_in_second_session db_user ;;;
  ret (access_token db_user).

Definition ensure_valid_access_token (db_user : User) : M pyval :=
  stale <- token_is_stale db_user ;;
  if stale : bool then refresh_and_persist db_user
  else ret (access_token db_user).

(** [GET /api/me]. Line 95 of [app.py] carries a stray character after
    the call of [ensure_valid_access_token]; the statement is read as the
    call and assignment it spells. *)
Definition api_me (spotify_user_id : string) : M pyval :=
  Sql.get_db ;;;
  user <- Sql.first_user (PStr spotify_user_id) ;;
  match user with
  | None => raise (HTTPException 404 "user not found")
  | Some user =>
      access_token <- ensure_valid_access_token user ;;
      backend.spotify_client.get_user_profile env access_token
  end.

(** The body of the loop of lines 111-130 for one item. The
    [retrieved_at] default of the model reads the clock for the new
    ranking row. *)
Definition store_item (user : User) (idx : Z) (item : pyval) : M unit :=
  spotify_track_id <- lift (Py.getitem item "id") ;;
  name <- lift (Py.getitem item "name") ;;
  artists_json <- lift (Py.getitem item "artists") ;;
  artists_iter <- lift (Py.iter artists_json) ;;
  names <- comprehension artists_iter (fun a => lift (Py.getitem a "name")) ;;
  artists <- lift (Py.join ", " names) ;;
  album_json <- lift (Py.getitem item "album") ;;
  album <- lift (Py.getitem album_json "name") ;;
  found <- Sql.first_track spotify_track_id ;;
  db_track <- match found with
              | Some t => ret t
              | None =>
                  t <- Sql.add_track
                         (fun k => mkTrack k spotify_track_id name (PStr artists) album PNone) ;;
                  Sql.commit ;;;
                  ret t
              end ;;
  now <- utcnow env ;;
  Sql.add_user_top_track
    (fun k => mkUserTopTrack k (u_id user) (t_id db_track) (idx + 1) now).

(** The body of the loop of lines 140-147 for one feature record. *)
Definition store_audio_feature (af : pyval) : M unit :=
  if negb (Py.truthy af) then ret tt
  else
    spotify_id <- lift (Py.getitem af "id") ;;
    found <- Sql.first_track spotify_id ;;
    match found with
    | Some db_track => Sql.assign_track (with_audio_features db_track af)
    | None => ret tt
    end.

(** Lines 133-148: the feature stage. *)
Definition fetch_audio_features (access_token : pyval) (items : list pyval) : M unit :=
  track_ids <- comprehension items (fun t => lift (Py.getitem t "id")) ;;
  match track_ids with
  | [] => ret tt
  | _ :: _ =>
      audio_features_json <- backend.spotify_client.get_audio_features env access_token track_ids ;;
      af_list <- lift (Py.get audio_features_json "audio_features" (PList [])) ;;
      afs <- lift (Py.iter af_list) ;;
      for_each afs store_audio_feature ;;;
      Sql.commit
  end.

(** [GET /api/top-tracks] *)
Definition api_top_tracks (spotify_user_id : string) (limit : Z) : M pyval :=
  Sql.get_db ;;;
  user <- Sql.first_user (PStr spotify_user_id) ;;
  match user with
  | None => raise (HTTPException 404 "user not found")
  | Some user =>
      access_token <- ensure_valid_access_token user ;;
      top_tracks_json <- backend.spotify_client.get_user_top_tracks env access_token limit ;;
      items <- lift (Py.get top_tracks_json "items" (PList [])) ;;
      items_iter <- lift (Py.iter items) ;;
      for_enumerate 0 items_iter (store_item user) ;;;
      Sql.commit ;;;
      fetch_audio_features access_token items_iter ;;;
      n <- lift (Py.len items) ;;
      ret (PDict [ ("fetched", PInt n) ])
  end.

(** [GET /auth/callback] *)
Definition auth_callback (code : option string) (state : option string) : M pyval :=
  match code with
  | None => raise (HTTPException 400 "Missing code in callback")
  | Some code =>
      token_json <- backend.spotify_client.exchange_code_for_token env code ;;
      access_token' <- lift (Py.getitem token_json "access_token") ;;
      refresh_token' <- lift (Py.get token_json "refresh_token" PNone) ;;
      expires_in <- lift (Py.get token_json "expires_in" (PInt 3600)) ;;
      now <- utcnow env ;;
      seconds <- lift (Py.int env expires_in) ;;
      lifetime <- lift (Py.timedelta_seconds seconds) ;;
      expires_at <- lift (Py.datetime_add now lifetime) ;;
      profile <- backend.spotify_client.get_user_profile env access_token' ;;
      spotify_user_id' <- lift (Py.getitem profile "id") ;;
      display_name' <- lift (Py.get profile "display_name" PNone) ;;
      Sql.get_db ;;;
      user <- Sql.first_user spotify_user_id' ;;
      match user with
      | Some user =>
          let user := with_access_token user access_token' in
          Sql.assign_user user ;;;
          let user := with_refresh_token user (Py.or refresh_token' (refresh_token user)) in
          Sql.assign_user user ;;;
          let user := with_token_expires user (Some expires_at) in
          Sql.assign_user user
      | None =>
          _ <- Sql.add_user (fun k => mkUser k spotify_user_id' display_name' access_token'
                                             refresh_token' (Some expires_at)) ;;
          ret tt
      end ;;;
      Sql.commit ;;;
      ret (PDict [ ("msg", PStr "auth success"); ("spotify_user_id", spotify_user_id') ])
  end.

End Handlers.

(** The status of the HTTP response the framework sends for a handler's
    outcome: 200 for a returned value, the status of an [HTTPException],
    500 for any other exception. *)
Definition response_status {A} (o : outcome A) : Z :=
  match o with
  | Ok _ => 200
  | Raise (HTTPException status _) => status
  | Raise _ => 500
  end.

End app.

(** ** Concrete worlds used to run the handlers *)

Module Fixture.

Definition item (id title artist_name album_name : string) : pyval :=
  PDict [ ("id", PStr id); ("name", PStr title);
          ("artists", PList [ PDict [ ("name", PStr artist_name) ] ]);
          ("album", PDict [ ("name", PStr album_name) ]) ].

Definition two_items : list pyval :=
  [ item "t1" "First" "Ann" "Red"; item "t2" "Second" "Bob" "Blue" ].

Definition feature (id : string) (tempo : Z) : pyval :=
  PDict [ ("id", PStr id); ("tempo", PInt tempo) ].

Definition respond (status : Z) (body : option pyval) (rq : Request) : outcome Response :=
  Ok (mkResponse status (rq_url rq) "" body).

(** A provider that answers every call; [features] is its answer on
    [/audio-features] and [token] the one of the token endpoint. *)
Definition provider (token features : Request -> outcome Response)
           (history : list Request) (rq : Request) : outcome Response :=
  if String.eqb (rq_url rq) "https://accounts.spotify.com/api/token" then token rq
  else if String.eqb (rq_url rq) "https://api.spotify.com/v1/me/top/tracks" then
    respond 200 (Some (PDict [ ("items", PList two_items) ])) rq
  else if String.eqb (rq_url rq) "https://api.spotify.com/v1/audio-features" then features rq
  else respond 200 (Some (PDict [ ("id", PStr "alice"); ("display_name", PStr "Alice") ])) rq.

Definition token_ok : Request -> outcome Response :=
  respond 200 (Some (PDict [ ("access_token", PStr "fresh"); ("expires_in", PInt 1800) ])).

Definition features_ok : Request -> outcome Response :=
  respond 200 (Some (PDict [ ("audio_features", PList [ feature "t1" 120; PNone ]) ])).

Definition features_forbidden : Request -> outcome Response :=
  respond 403 (Some (PDict [ ("error", PStr "forbidden") ])).

Definition env_of (token features : Request -> outcome Response) : Env :=
  mkEnv (provider token features)
        (fun n => 1700000000000000 + Z.of_nat n)
        (fun _ => None)
        "client-id" "client-secret" "http://127.0.0.1:8000/auth/callback".

Definition token_without_access_token : Request -> outcome Response :=
  respond 200 (Some (PDict [])).

Definition env_ok : Env := env_of token_ok features_ok.
Definition env_no_token : Env := env_of token_without_access_token features_ok.

(** A provider that answers every call with 401. *)
Definition env_unauthorized : Env :=
  mkEnv (fun _ => respond 401 (Some (PDict [ ("error", PStr "expired") ])))
        (fun n => 1700000000000000 + Z.of_nat n)
        (fun _ => None)
        "client-id" "client-secret" "http://127.0.0.1:8000/auth/callback".
Definition env_forbidden : Env := env_of token_ok features_forbidden.

(** Alice, with a token that is good for another hour, and one that
    expired a second ago. *)
Definition alice (expires : option Z) : User :=
  mkUser 1 (PStr "alice") (PStr "Alice") (PStr "old") (PStr "refresh") expires.

Definition alice_valid : User := alice (Some (1700000000000000 + 3600 * 1000000)).
Definition alice_expired : User := alice (Some (1700000000000000 - 1000000)).

Definition world_of (u : User) : World :=
  let d := mkDB [ u ] [] [] in
  mkWorld d d [] [] [] 0.

End Fixture.

(** ** Vocabulary of the statements *)

(** The stored row of a user, by primary key. *)
Definition stored_user (k : Z) (d : DB) : option User :=
  find (fun r => u_id r =? k) (users d).

(** The row a request for [spotify_user_id] loads. *)
Definition user_named (id : string) (d : DB) : option User :=
  find (fun u => Sql.eq (spotify_user_id u) (PStr id)) (users d).

(** The refresh exchange sent for a stored refresh token. *)
Definition refresh_request (env : Env) (refresh_token : pyval) : Request :=
  mkRequest POST "https://accounts.spotify.com/api/token"
            (Basic (CLIENT_ID env) (CLIENT_SECRET env))
            [ ("grant_type", PStr "refresh_token"); ("refresh_token", refresh_token) ].

(** The profile call made with a token. *)
Definition profile_request (token : pyval) : Request :=
  mkRequest GET "https://api.spotify.com/v1/me" (Bearer token) [].

(** The top-items call made with a token. *)
Definition top_tracks_request (token : pyval) (limit : Z) : Request :=
  mkRequest GET "https://api.spotify.com/v1/me/top/tracks" (Bearer token)
            [ ("limit", PInt limit); ("time_range", PStr "medium_term") ].

(** The validity rule read at clock reading [now]: the expiry is absent or
    at most 60 seconds ahead. *)
Definition invalid_at (now : Z) (u : User) : bool :=
  match token_expires u with
  | None => true
  | Some e => e <=? now + 60 * 1000000
  end.

(** The number of clock readings the validity test makes. *)
Definition test_ticks (u : User) : nat :=
  match token_expires u with
  | None => 0%nat
  | Some _ => 1%nat
  end.

(** The world after the validity test of the token manager: one clock
    reading later when the row has an expiry. *)
Definition after_test (u : User) (w : World) : World :=
  match token_expires u with
  | None => w
  | Some _ => mkWorld (db w) (sess w) (dirty_users w) (dirty_tracks w) (sent w) (S (ticks w))
  end.

(** The world a handler sees once it has opened its session. *)
Definition session_opened (w : World) : World :=
  mkWorld (db w) (db w) [] [] (sent w) (ticks w).

(** The call [api_get] of each client sends for a path. *)
Definition backend_request (path : string) (token : pyval) (params : list (string * pyval))
  : Request :=
  mkRequest GET ("https://api.spotify.com/v1"
                 ++ (if PyStr.startswith "/" path then path else "/" ++ path))
            (Bearer token) params.

Definition root_request (path : string) (token : pyval) (params : list (string * pyval))
  : Request :=
  mkRequest GET ("https://api.spotify.com/v1" ++ path) (Bearer token) params.

(** The refresh exchange for the stored refresh token of [u], sent from
    world [w], fails with [e]. *)
Definition exchange_failed (env : Env) (u : User) (w : World) (e : exn) : Prop :=
  fst (backend.spotify_client.refresh_access_token env (refresh_token u) w) = Raise e.

(** The loaded object after the assignments of the refresh path: the
    loaded row with the new access token and expiry, and with the refresh
    token of the answer when the answer has one. *)
Definition refreshed (u : User) (d : list (string * pyval)) (tok : pyval) (expiry : Z) : User :=
  mkUser (u_id u) (spotify_user_id u) (display_name u) tok
         (match Py.lookup "refresh_token" d with
          | Some v => v
          | None => refresh_token u
          end)
         (Some expiry).

(** What a caller that catches a failure can read from it:
    [e.response] of a [requests.HTTPError]. *)
Definition carried_response (e : exn) : option Response :=
  match e with
  | HTTPError _ r => Some r
  | _ => None
  end.

(** The test a caller can make for "token expired": the carried response
    has status 401, or the failure is the plain exception of the root-level
    client. *)
Definition signals_unauthorized (e : exn) : bool :=
  match e with
  | HTTPError _ r => status_code r =? 401
  | PlainException m => String.eqb m "Unauthorized - token may be expired"
  | _ => false
  end.

(** The external id of a fetched item, and the columns of a catalog row
    other than its feature blob. *)
Definition item_id (item : pyval) : pyval :=
  match Py.getitem item "id" with
  | Ok v => v
  | Raise _ => PNone
  end.

Definition metadata (t : Track) : Z * pyval * pyval * pyval * pyval :=
  (t_id t, spotify_track_id t, name t, artist t, album t).

(** The primary key of the catalog row of an external id (0 when there is
    none). *)
Definition track_pk (ts : list Track) (v : pyval) : Z :=
  match find (fun t => Sql.eq (spotify_track_id t) v) ts with
  | Some t => t_id t
  | None => 0
  end.

(** The ranking rows one run appends for a user, as (user, catalog row,
    rank), ranks counted from [idx + 1] in the order of the items. *)
Fixpoint expected_rankings (uid : Z) (ts : list Track) (idx : Z) (items : list pyval)
  : list (Z * Z * Z) :=
  match items with
  | [] => []
  | it :: r => (uid, track_pk ts (item_id it), idx + 1) :: expected_rankings uid ts (idx + 1) r
  end.

Definition ranking_key (r : UserTopTrack) : Z * Z * Z := (user_id r, track_id r, rank r).

(** The number of catalog rows that carry an external id. *)
Definition catalog_count (ts : list Track) (v : pyval) : nat :=
  List.length (filter (fun t => Sql.eq (spotify_track_id t) v) ts).

(** A computation keeps a relation between the world before and after it,
    however it ends. *)
Definition keeps {A} (R : World -> World -> Prop) (m : M A) : Prop :=
  forall w o w', m w = (o, w') -> R w w'.

(** The catalog and ranking tables, in the session and in the database,
    are untouched, and so is the set of changed track rows. *)
Definition same_catalog (w w' : World) : Prop :=
  tracks (sess w') = tracks (sess w)
  /\ user_top_tracks (sess w') = user_top_tracks (sess w)
  /\ tracks (db w') = tracks (db w)
  /\ user_top_tracks (db w') = user_top_tracks (db w).

(** The session's view of the users is untouched. *)
Definition same_session_users (w w' : World) : Prop :=
  users (sess w') = users (sess w).

(** With distinct primary keys in the session's catalog: its rows keep
    their metadata, and rankings and users of the session are untouched. *)
Definition same_metadata (w w' : World) : Prop :=
  NoDup (map t_id (tracks (sess w))) ->
  map metadata (tracks (sess w')) = map metadata (tracks (sess w))
  /\ user_top_tracks (sess w') = user_top_tracks (sess w)
  /\ users (sess w') = users (sess w).

(** A value the SQL layer binds: [None] or a [str]. *)
Definition bindable_value (v : pyval) : Prop :=
  v = PNone \/ exists s, v = PStr s.

(** The catalog has a row for an external id. *)
Definition in_catalog (ts : list Track) (v : pyval) : Prop :=
  exists t, find (fun t => Sql.eq (spotify_track_id t) v) ts = Some t.

(** The shape of an outbound call: a call of the token endpoint is a POST
    with the basic-auth header of the configured credentials; any other
    call is a GET below the API base with a bearer token. *)
Definition request_ok (env : Env) (rq : Request) : bool :=
  match rq_auth rq, rq_method rq with
  | Basic id secret, POST =>
      String.eqb id (CLIENT_ID env) && String.eqb secret (CLIENT_SECRET env)
      && String.eqb (rq_url rq) "https://accounts.spotify.com/api/token"
  | Bearer _, GET => String.prefix "https://api.spotify.com/v1/" (rq_url rq)
  | _, _ => false
  end.

(** Between two worlds at most [n] calls were sent, each of the right
    shape. *)
Definition sends (env : Env) (n : nat) (w w' : World) : Prop :=
  exists new,
    sent w' = (sent w ++ new)%list
    /\ (List.length new <= n)%nat
    /\ forallb (request_ok env) new = true.

(** A database that has grown out of another: the primary keys of its
    users and of its catalog rows, and its ranking rows, start with those
    of the other. *)
Definition extends (d d' : DB) : Prop :=
  (exists a, map u_id (users d') = (map u_id (users d) ++ a)%list)
  /\ (exists b, map t_id (tracks d') = (map t_id (tracks d) ++ b)%list)
  /\ (exists c, user_top_tracks d' = (user_top_tracks d ++ c)%list).

(** From a session that has grown out of the database, the step leads to
    such a session again and to a database grown out of the one before. *)
Definition append_only (w w' : World) : Prop :=
  extends (db w) (sess w) -> extends (db w') (sess w') /\ extends (db w) (db w').

(** The committed database is untouched. *)
Definition same_db (w w' : World) : Prop := db w' = db w.

(** A computation that, when it raises, has left the committed database
    untouched. *)
Definition raise_keeps_db {A} (m : M A) : Prop :=
  forall w e w', m w = (Raise e, w') -> db w' = db w.

(** Every character of the string is whitespace. *)
Definition all_space (s : string) : bool :=
  forallb PyStr.isspace (list_ascii_of_string s).



(** Filtering the catalog by an external id. *)
Definition by_track_id (v : pyval) (t : Track) : bool := Sql.eq (spotify_track_id t) v.

(** A provider whose list of top items is empty. *)
Definition env_no_items : Env :=
  mkEnv (fun _ => Fixture.respond 200 (Some (PDict [ ("items", PList []) ])))
        (fun n => 1700000000000000 + Z.of_nat n)
        (fun _ => None)
        "client-id" "client-secret" "http://127.0.0.1:8000/auth/callback".

(** A catalog row for the first item of the fixture, without features. *)
Definition track_t1 : Track :=
  mkTrack 1 (PStr "t1") (PStr "First") (PStr "Ann") (PStr "Red") PNone.

Definition world_with_track (t : Track) : World :=
  let d := mkDB [ Fixture.alice_valid ] [ t ] [] in
  mkWorld d d [] [] [] 0.

(** * Properties *)

(** ** Strings *)








(** ** Identifier normalisation *)














(** ** The monad *)

Lemma bind_Ok {A B} (m : M A) (k : A -> M B) w a w1 :
  m w = (Ok a, w1) -> bind m k w = k a w1.
Proof. unfold bind. now intros ->. Qed.

Lemma bind_Raise {A B} (m : M A) (k : A -> M B) w e w1 :
  m w = (Raise e, w1) -> bind m k w = (Raise e, w1).
Proof. unfold bind. now intros ->. Qed.

Lemma bind_Ok_inv {A B} (m : M A) (k : A -> M B) w b w' :
  bind m k w = (Ok b, w') ->
  exists a w1, m w = (Ok a, w1) /\ k a w1 = (Ok b, w').
Proof.
  unfold bind. destruct (m w) as [[a|e] w1]; intros H; [|discriminate].
  now exists a, w1.
Qed.

(** Unfolds the operations of the token manager down to matches on what
    the outside world answers. *)
Ltac step_handler :=
  unfold Sql.add_in_second_session, Sql.assign_user, Sql.set_sess, Sql.mark_user,
    utcnow, requests_send, raise_for_status, json in *;
  unfold bind, ret, raise, lift, try_except in *;
  cbn [fst snd db sess sent ticks dirty_users dirty_tracks users tracks user_top_tracks] in *.

Ltac hsimpl :=
  unfold ret, raise in *;
  cbn [fst snd db sess sent ticks dirty_users dirty_tracks users tracks user_top_tracks
       Py.get Py.contains Py.getitem].

(** ** The token manager *)

Lemma replace_user_again u1 u2 l :
  u_id u1 = u_id u2 ->
  Sql.replace_user u2 (Sql.replace_user u1 l) = Sql.replace_user u2 l.
Proof.
  intros E. unfold Sql.replace_user. rewrite map_map. apply map_ext. intros r.
  destruct (u_id r =? u_id u1) eqn:H1.
  - rewrite <- E, Z.eqb_refl, H1. reflexivity.
  - reflexivity.
Qed.

Lemma refresh_access_token_eq env rt :
  backend.spotify_client.refresh_access_token env rt
  = (resp <- requests_send env (refresh_request env rt) ;;
     raise_for_status resp ;;; json resp).
Proof. reflexivity. Qed.

(** The answer of the refresh exchange read off the provider. *)
Lemma exchange_failed_iff env u w e :
  exchange_failed env u w e <->
  match send env (sent w) (refresh_request env (refresh_token u)) with
  | Raise e' => e = e'
  | Ok resp =>
      if ok resp then json_body resp = None /\ e = ValueError
      else e = HTTPError (RaiseForStatusText (status_code resp) (url resp)) resp
  end.
Proof.
  unfold exchange_failed. rewrite refresh_access_token_eq. step_handler.
  destruct (send env (sent w) _) as [resp|e']; cbn; [|split; congruence].
  destruct (ok resp); cbn; [|split; congruence].
  destruct (json_body resp); cbn; (split; [intros [= <-]; auto | intros [? ?]; congruence]).
Qed.

(** The refreshed row as the three assignments build it. *)
Lemma refreshed_by_assignments u d tok expiry :
  (if match Py.lookup "refresh_token" d with Some _ => true | None => false end
   then app.with_refresh_token
          (app.with_token_expires (app.with_access_token u tok) (Some expiry))
          (match Py.lookup "refresh_token" d with Some v => v | None => PNone end)
   else app.with_token_expires (app.with_access_token u tok) (Some expiry))
  = refreshed u d tok expiry.
Proof. unfold refreshed. destruct (Py.lookup "refresh_token" d); reflexivity. Qed.

(** A clock reading is a datetime at least a minute before the last. *)
Lemma utcnow_at_range env n : 0 <= utcnow_at env n <= Py.DATETIME_MAX - 60 * 1000000.
Proof. unfold utcnow_at, Py.DATETIME_MAX. lia. Qed.

(** So the margin of the validity test can always be added to it. *)
Lemma margin_fits env n :
  Py.datetime_add (utcnow_at env n) (60 * 1000000) = Ok (utcnow_at env n + 60 * 1000000).
Proof.
  unfold Py.datetime_add. pose proof (utcnow_at_range env n) as [H0 H1].
  assert (E0 : (0 <=? utcnow_at env n + 60 * 1000000) = true) by (apply Z.leb_le; lia).
  assert (E1 : (utcnow_at env n + 60 * 1000000 <=? Py.DATETIME_MAX) = true)
    by (apply Z.leb_le; lia).
  now rewrite E0, E1.
Qed.

(** A sum that [datetime_add] returns is the sum. *)
Lemma datetime_add_Ok t d r : Py.datetime_add t d = Ok r -> r = t + d.
Proof.
  unfold Py.datetime_add. destruct ((0 <=? t + d) && (t + d <=? Py.DATETIME_MAX));
    [now intros [= <-]|discriminate].
Qed.

Lemma timedelta_seconds_Ok n d : Py.timedelta_seconds n = Ok d -> d = n * 1000000.
Proof.
  unfold Py.timedelta_seconds. cbv zeta.
  destruct ((- Py.MAX_DELTA_DAYS <=? n / 86400) && (n / 86400 <=? Py.MAX_DELTA_DAYS));
    [now intros [= <-]|discriminate].
Qed.

(** The refresh path run forward: with an answer that is a JSON object
    whose lifetime converts and fits, the credentials of the answer reach
    the loaded object, and the second session refuses it. *)
Lemma refresh_and_persist_forward env u w resp d expires_in seconds lifetime expiry :
  send env (sent w) (refresh_request env (refresh_token u)) = Ok resp ->
  ok resp = true ->
  json_body resp = Some (PDict d) ->
  Py.get (PDict d) "expires_in" (PInt 3600) = Ok expires_in ->
  Py.int env expires_in = Ok seconds ->
  Py.timedelta_seconds seconds = Ok lifetime ->
  Py.datetime_add (utcnow_at env (ticks w)) lifetime = Ok expiry ->
  let tok := match Py.lookup "access_token" d with Some x => x | None => PNone end in
  exists w',
    app.refresh_and_persist env u w = (Raise InvalidRequestError, w')
    /\ sent w' = (sent w ++ [refresh_request env (refresh_token u)])%list
    /\ users (sess w') = Sql.replace_user (refreshed u d tok expiry) (users (sess w))
    /\ db w' = db w.
Proof.
  intros Hsend Hok Hj Hexp Hint Hlife Hadd. cbv zeta.
  unfold app.refresh_and_persist. rewrite refresh_access_token_eq.
  step_handler. rewrite Hsend, Hok. hsimpl. rewrite Hj. hsimpl.
  set (tok := match Py.lookup "access_token" d with Some x => x | None => PNone end).
  assert (Htok : match Py.lookup "access_token" d with
                 | Some x => Ok x | None => Ok PNone end = Ok tok)
    by (subst tok; destruct (Py.lookup "access_token" d); reflexivity).
  cbn [Py.get] in Hexp. rewrite Htok, Hexp, Hint, Hlife, Hadd.
  pose proof (refreshed_by_assignments u d tok expiry) as Hu'.
  destruct (Py.lookup "refresh_token" d) as [v|] eqn:Hr; hsimpl;
    rewrite Hu';
    (eexists; (split; [reflexivity|]); hsimpl;
     (split; [reflexivity|]); (split; [|reflexivity]);
     fold (Sql.replace_user (app.with_token_expires (app.with_access_token u tok) (Some expiry)));
     rewrite <- ?Hu', !replace_user_again by reflexivity; reflexivity).
Qed.

(** The refresh path never returns: the exchange is sent, and whatever
    comes back the call raises with the database untouched; when the
    exchange itself fails, its failure is the one raised and the loaded
    object is untouched as well. *)
Lemma refresh_and_persist_raises env u w :
  exists e w',
    app.refresh_and_persist env u w = (Raise e, w')
    /\ sent w' = (sent w ++ [refresh_request env (refresh_token u)])%list
    /\ db w' = db w
    /\ forall e', exchange_failed env u w e' -> e = e' /\ sess w' = sess w.
Proof.
  pose proof (exchange_failed_iff env u w) as Hfail.
  unfold app.refresh_and_persist. rewrite refresh_access_token_eq. step_handler.
  destruct (send env (sent w) (refresh_request env (refresh_token u))) as [resp|e1] eqn:Hsend.
  2:{ eexists; eexists; split; [reflexivity|]. hsimpl. repeat split.
      all: apply Hfail in H; congruence. }
  destruct (ok resp) eqn:Hok.
  2:{ eexists; eexists; split; [reflexivity|]. hsimpl. repeat split.
      all: apply Hfail in H; congruence. }
  hsimpl. destruct (json_body resp) as [tj|] eqn:Hj.
  2:{ eexists; eexists; split; [reflexivity|]. hsimpl. repeat split.
      all: apply Hfail in H; destruct H; congruence. }
  assert (Hnofail : forall e', ~ exchange_failed env u w e').
  { intros e' H. apply Hfail in H. destruct H; congruence. }
  hsimpl.
  repeat match goal with
         | |- context [match ?x with _ => _ end] =>
             lazymatch x with
             | context [match _ with _ => _ end] => fail
             | _ => destruct x
             end
         end;
    (eexists; eexists; split; [reflexivity|]); hsimpl;
    (split; [reflexivity|]); (split; [reflexivity|]);
    intros; exfalso; eapply Hnofail; eassumption.
Qed.

Lemma after_test_facts u w :
  db (after_test u w) = db w /\ sess (after_test u w) = sess w
  /\ sent (after_test u w) = sent w
  /\ ticks (after_test u w) = (ticks w + test_ticks u)%nat.
Proof.
  unfold after_test, test_ticks. destruct (token_expires u); cbn; repeat split; lia.
Qed.

(** The token manager is its validity test followed, on an invalid token,
    by the refresh path; the test itself never raises. *)
Lemma ensure_valid_access_token_eq env u w :
  app.ensure_valid_access_token env u w
  = if invalid_at (utcnow_at env (ticks w)) u
    then app.refresh_and_persist env u (after_test u w)
    else (Ok (access_token u), after_test u w).
Proof.
  unfold app.ensure_valid_access_token, app.token_is_stale, invalid_at, after_test.
  destruct (token_expires u) as [e|]; [|reflexivity].
  change (Py.timedelta_seconds 60) with (@Ok Z (60 * 1000000)).
  unfold bind, utcnow, ret, lift. cbn [ticks]. rewrite margin_fits.
  destruct (e <=? _); reflexivity.
Qed.

Lemma exchange_failed_after_test env u w e :
  exchange_failed env u (after_test u w) e <-> exchange_failed env u w e.
Proof.
  rewrite !exchange_failed_iff.
  destruct (after_test_facts u w) as (_ & _ & -> & _). reflexivity.
Qed.

(** A call of the token manager returns exactly on a valid token, and then
    it has only read the clock. *)
Lemma ensure_valid_access_token_Ok env u w tok w1 :
  app.ensure_valid_access_token env u w = (Ok tok, w1) ->
  invalid_at (utcnow_at env (ticks w)) u = false
  /\ tok = access_token u /\ w1 = after_test u w.
Proof.
  rewrite ensure_valid_access_token_eq.
  destruct (invalid_at _ u).
  - destruct (refresh_and_persist_raises env u (after_test u w)) as (e & w' & E & _).
    rewrite E. discriminate.
  - intros [= <- <-]. auto.
Qed.

(** C3. The token manager sends exactly one refresh exchange when the
    stored expiry is absent or at most 60 seconds ahead of the clock, and
    none otherwise, in which case it changes nothing and returns the
    stored access token. The result of the exchange, however, is never
    persisted and never returned: on an invalid token the call raises
    whatever the provider answers, and the database is the one from before
    the call. For a stored user whose token expired a second ago and a
    provider that answers the exchange with a new token, the call raises
    the [InvalidRequestError] of the second session after the one
    exchange, and the stored row is the old one. An expiry one second in
    the past is invalid, one 3600 seconds ahead is valid. *)
Theorem refresh_exactly_when_invalid (env : Env) (u : User) (w : World) :
  let now := utcnow_at env (ticks w) in
  let r := app.ensure_valid_access_token env u w in
  (if invalid_at now u then
     sent (snd r) = (sent w ++ [refresh_request env (refresh_token u)])%list
     /\ (exists e, fst r = Raise e)
     /\ db (snd r) = db w
   else
     sent (snd r) = sent w /\ fst r = Ok (access_token u)
     /\ db (snd r) = db w /\ sess (snd r) = sess w)
  /\ invalid_at now (app.with_token_expires u (Some (now - 1000000))) = true
  /\ invalid_at now (app.with_token_expires u (Some (now + 3600 * 1000000))) = false
  /\ (let r0 := app.ensure_valid_access_token Fixture.env_ok Fixture.alice_expired
                  (Fixture.world_of Fixture.alice_expired) in
      fst r0 = Raise InvalidRequestError
      /\ sent (snd r0) = [refresh_request Fixture.env_ok (PStr "refresh")]
      /\ stored_user 1 (db (snd r0)) = Some Fixture.alice_expired).
Proof.
  cbv zeta. split.
  2:{ split; [unfold invalid_at; simpl; apply Z.leb_le; lia|].
      split; [unfold invalid_at; simpl; apply Z.leb_gt; lia|].
      vm_compute. repeat split. }
  rewrite ensure_valid_access_token_eq.
  destruct (after_test_facts u w) as (Hdb & Hsess & Hsent & Hticks).
  destruct (invalid_at _ u).
  - destruct (refresh_and_persist_raises env u (after_test u w)) as (e & w' & E & Hs & Hw' & _).
    rewrite E. cbn [fst snd]. rewrite Hs, Hsent, Hw', Hdb. eauto.
  - cbn [fst snd]. auto.
Qed.

(** C2. After a call of the token manager on a stored user, the stored
    access token and expiry are either the row as it was before the call
    or the access token and the expiry (clock reading plus lifetime) taken
    from one and the same refresh answer, which the call then returns.
    Whenever the call raises, the stored row is the one from before the
    call; when the refresh exchange itself fails, the database and the
    loaded object are both exactly as before and, on an invalid token, the
    failure is the one the call raises. *)
Theorem token_and_expiry_stay_paired (env : Env) (u : User) (w : World) :
  stored_user (u_id u) (db w) = Some u ->
  let r := app.ensure_valid_access_token env u w in
  (exists u',
      stored_user (u_id u) (db (snd r)) = Some u'
      /\ (u' = u
          \/ exists resp d expires_in seconds,
               send env (sent w) (refresh_request env (refresh_token u)) = Ok resp
               /\ json_body resp = Some (PDict d)
               /\ Py.get (PDict d) "access_token" PNone = Ok (access_token u')
               /\ Py.get (PDict d) "expires_in" (PInt 3600) = Ok expires_in
               /\ Py.int env expires_in = Ok seconds
               /\ token_expires u'
                  = Some (utcnow_at env (ticks w + test_ticks u) + seconds * 1000000)
               /\ fst r = Ok (access_token u'))
      /\ (forall e, fst r = Raise e -> u' = u))
  /\ (forall e, exchange_failed env u w e ->
        db (snd r) = db w /\ sess (snd r) = sess w
        /\ (invalid_at (utcnow_at env (ticks w)) u = true -> fst r = Raise e)).
Proof.
  intros Hstored. cbv zeta. rewrite ensure_valid_access_token_eq.
  destruct (after_test_facts u w) as (Hdb & Hsess & Hsent & Hticks).
  destruct (invalid_at _ u).
  2:{ cbn [fst snd]. rewrite Hdb, Hsess. split.
      - exists u. split; [assumption|]. split; [now left|reflexivity].
      - intros e _. repeat split. discriminate. }
  destruct (refresh_and_persist_raises env u (after_test u w)) as (e & w' & E & Hs & Hw' & Hf).
  rewrite E. cbn [fst snd]. split.
  - exists u. rewrite Hw', Hdb. split; [assumption|]. split; [now left|reflexivity].
  - intros e' He. apply exchange_failed_after_test in He.
    destruct (Hf e' He) as [-> Hs']. rewrite Hw', Hs', Hdb, Hsess. auto.
Qed.

Lemma token_and_expiry_stay_paired_witness :
  stored_user 1 (db (Fixture.world_of Fixture.alice_expired)) = Some Fixture.alice_expired
  /\ exists u',
       stored_user 1 (db (snd (app.ensure_valid_access_token Fixture.env_ok Fixture.alice_expired
                                 (Fixture.world_of Fixture.alice_expired)))) = Some u'.
Proof.
  split; [reflexivity|].
  destruct (token_and_expiry_stay_paired Fixture.env_ok Fixture.alice_expired
              (Fixture.world_of Fixture.alice_expired) eq_refl) as [(u' & H & _) _].
  exists u'. exact H.
Defined.

(** C4. A successful refresh exchange is not persisted. When the stored
    token is invalid and the provider answers the exchange with a success
    status and a JSON body, the call raises and the database is exactly
    the one from before: the stored access token, refresh token and expiry
    are the old ones. When the answer is a JSON object whose lifetime
    converts and fits a datetime (3600 seconds when the object has no
    [expires_in]), the new credentials (the new access token, the expiry
    "clock reading plus lifetime", the refresh token of the answer when it
    has the field and the previous one when it has not, the other columns
    as before) reach the loaded object of the handler's session only, and
    the failure is the [InvalidRequestError] with which the second session
    refuses that object. *)
Theorem successful_refresh_is_not_persisted
        (env : Env) (u : User) (w : World) (resp : Response) (token_json : pyval) :
  invalid_at (utcnow_at env (ticks w)) u = true ->
  send env (sent w) (refresh_request env (refresh_token u)) = Ok resp ->
  ok resp = true ->
  json_body resp = Some token_json ->
  let r := app.ensure_valid_access_token env u w in
  (exists e, fst r = Raise e)
  /\ db (snd r) = db w
  /\ forall d expires_in seconds lifetime expiry,
       token_json = PDict d ->
       Py.get (PDict d) "expires_in" (PInt 3600) = Ok expires_in ->
       Py.int env expires_in = Ok seconds ->
       Py.timedelta_seconds seconds = Ok lifetime ->
       Py.datetime_add (utcnow_at env (ticks w + test_ticks u)) lifetime = Ok expiry ->
       fst r = Raise InvalidRequestError
       /\ expiry = utcnow_at env (ticks w + test_ticks u) + seconds * 1000000
       /\ (Py.lookup "expires_in" d = None -> seconds = 3600)
       /\ users (sess (snd r))
          = Sql.replace_user
              (mkUser (u_id u) (spotify_user_id u) (display_name u)
                      (match Py.lookup "access_token" d with
                       | Some x => x
                       | None => PNone
                       end)
                      (match Py.lookup "refresh_token" d with
                       | Some v => v
                       | None => refresh_token u
                       end)
                      (Some expiry))
              (users (sess w)).
Proof.
  intros Hinv Hsend Hok Hj. cbv zeta.
  rewrite ensure_valid_access_token_eq, Hinv.
  destruct (after_test_facts u w) as (Hdb & Hsess & Hsent & Hticks).
  rewrite <- Hsent in Hsend.
  destruct (refresh_and_persist_raises env u (after_test u w)) as (e & w' & E & _ & Hw' & _).
  rewrite E. cbn [fst snd]. split; [eauto|]. split; [congruence|].
  intros d expires_in seconds lifetime expiry -> Hexp Hint Hlife Hadd.
  rewrite <- Hticks in Hadd.
  destruct (refresh_and_persist_forward env u (after_test u w) resp d expires_in seconds
              lifetime expiry Hsend Hok Hj Hexp Hint Hlife Hadd) as (w1 & E1 & _ & Hs1 & _).
  cbv zeta in Hs1. rewrite E in E1. injection E1 as -> ->.
  split; [reflexivity|]. split.
  { apply datetime_add_Ok in Hadd. apply timedelta_seconds_Ok in Hlife.
    now rewrite Hadd, Hlife, Hticks. }
  split.
  { intros Hnone. cbn in Hexp. rewrite Hnone in Hexp. injection Hexp as <-.
    cbn in Hint. congruence. }
  rewrite Hs1, Hsess. reflexivity.
Qed.

Lemma successful_refresh_is_not_persisted_witness :
  fst (app.ensure_valid_access_token Fixture.env_ok Fixture.alice_expired
         (Fixture.world_of Fixture.alice_expired)) = Raise InvalidRequestError
  /\ db (snd (app.ensure_valid_access_token Fixture.env_ok Fixture.alice_expired
                (Fixture.world_of Fixture.alice_expired)))
     = db (Fixture.world_of Fixture.alice_expired).
Proof.
  destruct (successful_refresh_is_not_persisted Fixture.env_ok Fixture.alice_expired
              (Fixture.world_of Fixture.alice_expired)
              (mkResponse 200 "https://accounts.spotify.com/api/token" ""
                 (Some (PDict [ ("access_token", PStr "fresh"); ("expires_in", PInt 1800) ])))
              (PDict [ ("access_token", PStr "fresh"); ("expires_in", PInt 1800) ])
              eq_refl eq_refl eq_refl eq_refl) as (_ & Hdb & H).
  split; [|exact Hdb].
  exact (proj1 (H [ ("access_token", PStr "fresh"); ("expires_in", PInt 1800) ]
                  (PInt 1800) 1800 1800000000 (1700000000000000 + 1 + 1800000000)
                  eq_refl eq_refl eq_refl eq_refl eq_refl)).
Defined.

(** C10, as amended. When the token is invalid and the refresh exchange
    answers with a JSON object that has no access token field, the call
    does not return [None] and [None] is not persisted: the call raises,
    and the database, the stored access token, refresh token and expiry
    included, is as before the call. *)
Theorem refresh_without_access_token_is_rejected
        (env : Env) (u : User) (w : World) (resp : Response) (d : list (string * pyval)) :
  invalid_at (utcnow_at env (ticks w)) u = true ->
  send env (sent w) (refresh_request env (refresh_token u)) = Ok resp ->
  ok resp = true ->
  json_body resp = Some (PDict d) ->
  Py.lookup "access_token" d = None ->
  let r := app.ensure_valid_access_token env u w in
  (exists e, fst r = Raise e)
  /\ fst r <> Ok PNone
  /\ db (snd r) = db w
  /\ (forall u0, stored_user (u_id u) (db w) = Some u0 ->
                 stored_user (u_id u) (db (snd r)) = Some u0).
Proof.
  intros Hinv Hsend Hok Hj Htok. cbv zeta.
  rewrite ensure_valid_access_token_eq, Hinv.
  destruct (after_test_facts u w) as (Hdb & _).
  destruct (refresh_and_persist_raises env u (after_test u w)) as (e & w' & E & _ & Hw' & _).
  rewrite E. cbn [fst snd]. rewrite Hw', Hdb.
  split; [eauto|]. split; [discriminate|]. split; [reflexivity|]. auto.
Qed.

Lemma refresh_without_access_token_is_rejected_witness :
  db (snd (app.ensure_valid_access_token Fixture.env_no_token Fixture.alice_expired
             (Fixture.world_of Fixture.alice_expired)))
  = db (Fixture.world_of Fixture.alice_expired).
Proof.
  exact (proj1 (proj2 (proj2 (refresh_without_access_token_is_rejected
                                Fixture.env_no_token Fixture.alice_expired
                                (Fixture.world_of Fixture.alice_expired)
                                (mkResponse 200 "https://accounts.spotify.com/api/token" ""
                                   (Some (PDict [])))
                                [] eq_refl eq_refl eq_refl eq_refl eq_refl)))).
Defined.

(** C10, as stated, fails: with an answer [{}] to the refresh exchange the
    call does not return [None]; it raises, and the stored access token and
    expiry are the old ones, not [None] and a new expiry. *)
Lemma refresh_without_access_token_raises :
  let r := app.ensure_valid_access_token Fixture.env_no_token Fixture.alice_expired
             (Fixture.world_of Fixture.alice_expired) in
  fst r = Raise InvalidRequestError
  /\ fst r <> Ok PNone
  /\ stored_user 1 (db (snd r)) = Some Fixture.alice_expired.
Proof. cbv zeta. repeat split. discriminate. Qed.

(** ** The handlers *)

Lemma filter_none {A} (l : list A) : filter (fun _ => false) l = [].
Proof. induction l; auto. Qed.

Lemma pending_error_clean w :
  dirty_users w = [] -> dirty_tracks w = [] -> Sql.pending_error w = None.
Proof.
  unfold Sql.pending_error. intros -> ->. cbn [Sql.mem existsb].
  now rewrite !filter_none.
Qed.

Lemma first_user_opened id w :
  Sql.first_user (PStr id) (session_opened w) = (Ok (user_named id (db w)), session_opened w).
Proof.
  unfold Sql.first_user, Sql.flush, bind.
  rewrite pending_error_clean by reflexivity. reflexivity.
Qed.

Lemma api_me_eq env id w :
  app.api_me env id w
  = match user_named id (db w) with
    | None => (Raise (HTTPException 404 "user not found"), session_opened w)
    | Some u =>
        (access_token <- app.ensure_valid_access_token env u ;;
         backend.spotify_client.get_user_profile env access_token) (session_opened w)
    end.
Proof.
  unfold app.api_me. unfold bind at 1. unfold Sql.get_db.
  change (mkWorld (db w) (db w) [] [] (sent w) (ticks w)) with (session_opened w).
  unfold bind at 1. rewrite first_user_opened.
  destruct (user_named id (db w)); reflexivity.
Qed.

(** C8. A callback without a [code] raises the 400 of the handler before
    anything else happens: no call is sent and the world, the stored users
    included, is the one from before the request. *)
Theorem callback_without_code_is_400 (env : Env) (state : option string) (w : World) :
  app.auth_callback env None state w
  = (Raise (HTTPException 400 "Missing code in callback"), w)
  /\ app.response_status (fst (app.auth_callback env None state w)) = 400
  /\ users (db (snd (app.auth_callback env None state w))) = users (db w).
Proof. repeat split. Qed.

(** C9. The profile handler answers an unknown external user id with a
    404, sending nothing and leaving the database alone. For a stored user
    whose token is valid it sends exactly the profile call, with the
    stored access token, and returns the provider's answer to it (the JSON
    body, or the text of a body that is not JSON), or raises the failure
    of that call. For a stored user whose token is invalid it does not
    return the profile: it sends the refresh exchange and nothing else,
    and raises, with the database as before. For a stored user whose
    token expired a second ago and a provider that answers every call, the
    failure is the [InvalidRequestError] of the
    second session, a 500 for the client. Line 95 of [app.py] does not
    parse as it is written; the handler is read as the call that line
    spells. *)
Theorem api_me_spec (env : Env) (id : string) (w : World) :
  let r := app.api_me env id w in
  (match user_named id (db w) with
   | None =>
       fst r = Raise (HTTPException 404 "user not found")
       /\ app.response_status (fst r) = 404
       /\ sent (snd r) = sent w
       /\ db (snd r) = db w
   | Some u =>
       if invalid_at (utcnow_at env (ticks w)) u then
         sent (snd r) = (sent w ++ [refresh_request env (refresh_token u)])%list
         /\ (exists e, fst r = Raise e)
         /\ db (snd r) = db w
       else
         let rq := profile_request (access_token u) in
         sent (snd r) = (sent w ++ [rq])%list
         /\ db (snd r) = db w
         /\ fst r = match send env (sent w) rq with
                    | Ok resp =>
                        let body := match json_body resp with
                                    | Some v => v
                                    | None => PStr (text resp)
                                    end in
                        if ok resp then Ok body
                        else Raise (HTTPError (ApiGetText (status_code resp) (url resp) body)
                                              resp)
                    | Raise e => Raise e
                    end
   end)
  /\ (let r0 := app.api_me Fixture.env_ok "alice" (Fixture.world_of Fixture.alice_expired) in
      fst r0 = Raise InvalidRequestError
      /\ app.response_status (fst r0) = 500
      /\ sent (snd r0) = [refresh_request Fixture.env_ok (PStr "refresh")]
      /\ db (snd r0) = db (Fixture.world_of Fixture.alice_expired)).
Proof.
  cbv zeta. split; [|vm_compute; repeat split].
  rewrite api_me_eq.
  destruct (user_named id (db w)) as [u|]; [|repeat split].
  destruct (after_test_facts u (session_opened w)) as (Hdb & _ & Hsent & _).
  cbn [db sent session_opened] in Hdb, Hsent.
  pose proof (ensure_valid_access_token_eq env u (session_opened w)) as E.
  cbn [ticks session_opened] in E.
  destruct (invalid_at (utcnow_at env (ticks w)) u).
  - destruct (refresh_and_persist_raises env u (after_test u (session_opened w)))
      as (e & w' & E' & Hs & Hw' & _).
    rewrite E' in E. rewrite (bind_Raise _ _ _ _ _ E). cbn [fst snd].
    rewrite Hs, Hsent, Hw', Hdb. eauto.
  - rewrite (bind_Ok _ _ _ _ _ E).
    unfold backend.spotify_client.get_user_profile, backend.spotify_client.api_get.
    change (mkRequest GET _ (Bearer (access_token u)) [])
      with (profile_request (access_token u)).
    unfold bind, requests_send. rewrite Hsent, Hdb.
    destruct (send env (sent w) (profile_request (access_token u))) as [resp|e];
      [|repeat split].
    destruct (ok resp); cbn [negb]; destruct (json_body resp); repeat split.
Qed.

(** C7, as amended. Let a call answer with a status from 400 to 599.
    Through the client the application imports, [api_get] raises an
    [HTTPError] that carries the response (status code and body) and whose
    text has the status, the url and the body. Through the root-level copy
    of the client, a 401 raises a plain exception that carries nothing but
    a fixed message, and any other such status raises an [HTTPError] that
    carries the response. In both clients the raised failure signals
    "unauthorized" exactly when the status is 401. *)
Theorem api_get_failure_kinds
        (env : Env) (w : World) (token : pyval) (params : list (string * pyval))
        (resp : Response) :
  ok resp = false ->
  (forall path,
      send env (sent w) (backend_request path token params) = Ok resp ->
      let e := HTTPError (ApiGetText (status_code resp) (url resp)
                            (match json_body resp with
                             | Some body => body
                             | None => PStr (text resp)
                             end)) resp in
      fst (backend.spotify_client.api_get env path token params w) = Raise e
      /\ carried_response e = Some resp
      /\ signals_unauthorized e = (status_code resp =? 401))
  /\ (forall path,
      send env (sent w) (root_request path token params) = Ok resp ->
      let e := if status_code resp =? 401
               then PlainException "Unauthorized - token may be expired"
               else HTTPError (RaiseForStatusText (status_code resp) (url resp)) resp in
      fst (spotify_client.api_get env path token params w) = Raise e
      /\ carried_response e = (if status_code resp =? 401 then None else Some resp)
      /\ signals_unauthorized e = (status_code resp =? 401)).
Proof.
  intros Hok. split; intros path Hsend; cbv zeta.
  - unfold backend.spotify_client.api_get.
    change (mkRequest GET _ (Bearer token) params) with (backend_request path token params).
    unfold bind, requests_send. rewrite Hsend, Hok. repeat split.
  - unfold spotify_client.api_get.
    change (mkRequest GET _ (Bearer token) params) with (root_request path token params).
    unfold bind, requests_send. rewrite Hsend.
    destruct (status_code resp =? 401) eqn:H401; [repeat split|].
    unfold raise_for_status. rewrite Hok. cbn. now rewrite H401.
Qed.

Lemma api_get_failure_kinds_witness :
  fst (backend.spotify_client.api_get Fixture.env_unauthorized "/me" (PStr "old") []
         (Fixture.world_of Fixture.alice_valid))
  = Raise (HTTPError (ApiGetText 401 "https://api.spotify.com/v1/me"
                        (PDict [ ("error", PStr "expired") ]))
             (mkResponse 401 "https://api.spotify.com/v1/me" ""
                (Some (PDict [ ("error", PStr "expired") ])))).
Proof.
  exact (proj1 (proj1 (api_get_failure_kinds Fixture.env_unauthorized
                         (Fixture.world_of Fixture.alice_valid) (PStr "old") []
                         (mkResponse 401 "https://api.spotify.com/v1/me" ""
                            (Some (PDict [ ("error", PStr "expired") ])))
                         eq_refl) "/me" eq_refl)).
Defined.

(** C7, as stated, fails for the root-level copy of the client: on a 401
    its failure carries neither the status code nor the body. *)
Lemma root_client_401_carries_nothing :
  let r := spotify_client.api_get Fixture.env_unauthorized "/me" (PStr "old") []
             (Fixture.world_of Fixture.alice_valid) in
  fst r = Raise (PlainException "Unauthorized - token may be expired")
  /\ ~ (exists e resp, fst r = Raise e /\ carried_response e = Some resp).
Proof.
  cbv zeta. split; [reflexivity|].
  intros (e & resp & He & Hc). cbv in He. injection He as <-. discriminate Hc.
Qed.

(** ** The feature stage when the feature call fails *)

(** Whatever is raised inside [get_audio_features] is swallowed: the
    function returns, and what it returns after a failure is
    [{"audio_features": None}]. *)
Lemma get_audio_features_swallows env token ids w :
  exists v w', backend.spotify_client.get_audio_features env token ids w = (Ok v, w')
  /\ ((exists e, (i <- lift (Py.join "," ids) ;;
                  backend.spotify_client.api_get env "/audio-features" token
                                                 [ ("ids", PStr i) ]) w = (Raise e, w'))
      -> v = PDict [ ("audio_features", PNone) ]).
Proof.
  unfold backend.spotify_client.get_audio_features, try_except.
  destruct ((i <- lift (Py.join "," ids) ;; _) w) as [[v|e] w'] eqn:E.
  - exists v, w'. split; [reflexivity|]. intros [e H]. discriminate.
  - eexists _, w'. split; reflexivity.
Qed.

(** With at least one item whose id reads, a failing feature call makes
    the feature stage raise [TypeError]: the [None] that stands for "no
    features" is iterated. *)
Lemma failing_feature_call_raises_TypeError env token items id ids w e w' :
  comprehension items (fun t => lift (Py.getitem t "id")) w = (Ok (id :: ids), w) ->
  (i <- lift (Py.join "," (id :: ids)) ;;
   backend.spotify_client.api_get env "/audio-features" token [ ("ids", PStr i) ]) w
  = (Raise e, w') ->
  app.fetch_audio_features env token items w = (Raise TypeError, w').
Proof.
  intros Hids Hcall. unfold app.fetch_audio_features.
  rewrite (bind_Ok _ _ _ _ _ Hids).
  assert (Hget : backend.spotify_client.get_audio_features env token (id :: ids) w
                 = (Ok (PDict [ ("audio_features", PNone) ]), w')).
  { unfold backend.spotify_client.get_audio_features, try_except. now rewrite Hcall. }
  rewrite (bind_Ok _ _ _ _ _ Hget). reflexivity.
Qed.

(** C1 fails on the code. With two fetched items and a provider that
    answers the feature call with 403, the handler stores the two catalog
    rows and the two ranking rows, and then raises [TypeError] out of the
    feature stage: the caller gets a 500, not [{fetched: 2}]. *)
Theorem feature_failure_escapes_top_tracks :
  let r := app.api_top_tracks Fixture.env_forbidden "alice" 50
             (Fixture.world_of Fixture.alice_valid) in
  fst r = Raise TypeError
  /\ app.response_status (fst r) = 500
  /\ List.length (tracks (db (snd r))) = 2%nat
  /\ List.length (user_top_tracks (db (snd r))) = 2%nat
  /\ Forall (fun t => audio_features t = PNone) (tracks (db (snd r))).
Proof.
  cbv zeta. vm_compute. repeat split. repeat constructor.
Qed.

(** ** Relations kept by the steps of a handler *)

Section Keeps.

Variable R : World -> World -> Prop.
Hypothesis R_refl : forall w, R w w.
Hypothesis R_trans : forall a b c, R a b -> R b c -> R a c.

Lemma keeps_ret {A} (a : A) : keeps R (ret a).
Proof. intros w o w' [= _ <-]. apply R_refl. Qed.

Lemma keeps_raise {A} (e : exn) : keeps R (@raise A e).
Proof. intros w o w' [= _ <-]. apply R_refl. Qed.

Lemma keeps_lift {A} (o : outcome A) : keeps R (lift o).
Proof. intros w o' w' [= _ <-]. apply R_refl. Qed.

Lemma keeps_bind {A B} (m : M A) (k : A -> M B) :
  keeps R m -> (forall a, keeps R (k a)) -> keeps R (bind m k).
Proof.
  intros Hm Hk w o w'. unfold bind.
  destruct (m w) as [[a|e] w1] eqn:E; intros H.
  - eapply R_trans; [eapply Hm; eassumption|eapply Hk; eassumption].
  - injection H as _ <-. eapply Hm; eassumption.
Qed.

Lemma keeps_try_except {A} (m : M A) (h : exn -> M A) :
  keeps R m -> (forall e, keeps R (h e)) -> keeps R (try_except m h).
Proof.
  intros Hm Hh w o w'. unfold try_except.
  destruct (m w) as [[a|e] w1] eqn:E; intros H.
  - injection H as _ <-. eapply Hm; eassumption.
  - eapply R_trans; [eapply Hm; eassumption|eapply Hh; eassumption].
Qed.

Lemma keeps_for_each {A} (l : list A) (body : A -> M unit) :
  (forall x, keeps R (body x)) -> keeps R (for_each l body).
Proof.
  intros Hb. induction l as [|x l IH]; cbn [for_each].
  - apply keeps_ret.
  - apply keeps_bind; auto.
Qed.

Lemma keeps_comprehension {A B} (l : list A) (f : A -> M B) :
  (forall x, keeps R (f x)) -> keeps R (comprehension l f).
Proof.
  intros Hf. induction l as [|x l IH]; cbn [comprehension].
  - apply keeps_ret.
  - apply keeps_bind; [auto|]. intros y. apply keeps_bind; [auto|].
    intros ys. apply keeps_ret.
Qed.

End Keeps.

(** Takes a handler apart along its binds and branches. *)
Ltac keeps_steps refl trans :=
  cbv zeta;
  repeat first
    [ solve [auto with keeps]
    | apply (keeps_ret _ refl)
    | apply (keeps_raise _ refl)
    | apply (keeps_lift _ refl)
    | apply (keeps_bind _ trans); [|intro]
    | apply (keeps_try_except _ trans); [|intro]
    | apply (keeps_for_each _ refl trans); intro
    | apply (keeps_comprehension _ refl trans); intro
    | match goal with
      | |- keeps _ (if ?b then _ else _) => destruct b
      | |- keeps _ (match ?x with _ => _ end) => destruct x
      end
    | progress cbv zeta ].

Create HintDb keeps.

Lemma same_catalog_refl w : same_catalog w w.
Proof. repeat split. Qed.

Lemma same_catalog_trans a b c : same_catalog a b -> same_catalog b c -> same_catalog a c.
Proof. unfold same_catalog. intros (?&?&?&?) (?&?&?&?). repeat split; congruence. Qed.

Lemma same_session_users_refl w : same_session_users w w.
Proof. reflexivity. Qed.

Lemma same_session_users_trans a b c :
  same_session_users a b -> same_session_users b c -> same_session_users a c.
Proof. unfold same_session_users. congruence. Qed.

Lemma utcnow_same_catalog env : keeps same_catalog (utcnow env).
Proof. intros w o w' [= _ <-]. repeat split. Qed.

Lemma requests_send_same_catalog env rq : keeps same_catalog (requests_send env rq).
Proof. intros w o w' [= _ <-]. repeat split. Qed.

Lemma raise_for_status_same_catalog r : keeps same_catalog (raise_for_status r).
Proof. unfold raise_for_status. destruct (ok r); intros w o w' [= _ <-]; repeat split. Qed.

Lemma json_same_catalog r : keeps same_catalog (json r).
Proof. unfold json. destruct (json_body r); intros w o w' [= _ <-]; repeat split. Qed.

Lemma assign_user_same_catalog u : keeps same_catalog (Sql.assign_user u).
Proof. intros w o w' [= _ <-]. repeat split. Qed.

Lemma add_in_second_session_same_catalog u : keeps same_catalog (Sql.add_in_second_session u).
Proof. apply keeps_raise, same_catalog_refl. Qed.

#[local] Hint Resolve utcnow_same_catalog requests_send_same_catalog
  raise_for_status_same_catalog json_same_catalog assign_user_same_catalog
  add_in_second_session_same_catalog : keeps.

Lemma api_get_same_catalog env path token params :
  keeps same_catalog (backend.spotify_client.api_get env path token params).
Proof.
  unfold backend.spotify_client.api_get.
  keeps_steps same_catalog_refl same_catalog_trans.
Qed.

Lemma ensure_valid_access_token_same_catalog env u :
  keeps same_catalog (app.ensure_valid_access_token env u).
Proof.
  unfold app.ensure_valid_access_token, app.token_is_stale, app.refresh_and_persist,
    backend.spotify_client.refresh_access_token.
  keeps_steps same_catalog_refl same_catalog_trans.
Qed.

Lemma utcnow_same_users env : keeps same_session_users (utcnow env).
Proof. intros w o w' [= _ <-]. reflexivity. Qed.

Lemma requests_send_same_users env rq : keeps same_session_users (requests_send env rq).
Proof. intros w o w' [= _ <-]. reflexivity. Qed.

#[local] Hint Resolve utcnow_same_users requests_send_same_users : keeps.

Lemma api_get_same_users env path token params :
  keeps same_session_users (backend.spotify_client.api_get env path token params).
Proof.
  unfold backend.spotify_client.api_get.
  keeps_steps same_session_users_refl same_session_users_trans.
Qed.

(** ** The SQL layer *)

Lemma bindable_eq_refl v : bindable_value v -> Sql.eq v v = true.
Proof. intros [->|[s ->]]; cbn; [reflexivity|apply String.eqb_refl]. Qed.

Lemma bindable_eq_true c v : bindable_value v -> Sql.eq c v = true -> c = v.
Proof.
  intros [->|[s ->]]; destruct c; cbn; try discriminate; [reflexivity|].
  intros H. apply String.eqb_eq in H. now subst.
Qed.

Lemma lift_inv {A} (o : outcome A) w r w' : lift o w = (r, w') -> r = o /\ w' = w.
Proof. intros [= <- <-]. auto. Qed.

Lemma flush_Ok w w' : Sql.flush w = (Ok tt, w') -> w' = w.
Proof. unfold Sql.flush. destruct (Sql.pending_error w); intros [= <-]; reflexivity. Qed.

Lemma bindable_Ok v w w' : Sql.bindable v w = (Ok tt, w') -> bindable_value v /\ w' = w.
Proof.
  destruct v; cbn; intros [= <-]; split; auto; [now left|right; eauto].
Qed.

Lemma first_track_Ok v w r w' :
  Sql.first_track v w = (Ok r, w') ->
  w' = w /\ bindable_value v
  /\ r = find (fun t => Sql.eq (spotify_track_id t) v) (tracks (sess w)).
Proof.
  unfold Sql.first_track. intros H.
  apply bind_Ok_inv in H as ([] & w1 & Hf & H). apply flush_Ok in Hf. subst w1.
  apply bind_Ok_inv in H as ([] & w1 & Hb & H). apply bindable_Ok in Hb as [Hb ->].
  injection H as <- <-. auto.
Qed.

Lemma commit_Ok w w' :
  Sql.commit w = (Ok tt, w') -> w' = mkWorld (sess w) (sess w) [] [] (sent w) (ticks w).
Proof.
  unfold Sql.commit. intros H.
  apply bind_Ok_inv in H as ([] & w1 & Hf & H). apply flush_Ok in Hf. subst w1.
  now injection H as <-.
Qed.

Lemma comprehension_lift {A B} (f : A -> outcome B) (l : list A) w r w' :
  comprehension l (fun x => lift (f x)) w = (r, w') -> w' = w.
Proof.
  revert r w'. induction l as [|x l IH]; cbn [comprehension]; intros r w'.
  - now intros [= _ <-].
  - unfold bind at 1, lift at 1. destruct (f x) as [y|e]; [|now intros [= _ <-]].
    unfold bind at 1.
    destruct (comprehension l _ w) as [[ys|e] w1] eqn:E;
      specialize (IH _ _ eq_refl); subst w1; now intros [= _ <-].
Qed.

Lemma next_pk_above l x : In x l -> x < Sql.next_pk l.
Proof.
  unfold Sql.next_pk. induction l as [|y l IH]; cbn [In fold_right]; [tauto|].
  intros [->|H]; [lia|]. specialize (IH H). lia.
Qed.

Lemma next_pk_fresh l : ~ In (Sql.next_pk l) l.
Proof. intros H. apply next_pk_above in H. lia. Qed.

Lemma find_app_found {A} (p : A -> bool) l l' x :
  find p l = Some x -> find p (l ++ l') = Some x.
Proof.
  induction l as [|y l IH]; cbn; [discriminate|]. destruct (p y); auto.
Qed.

Lemma find_app_missing {A} (p : A -> bool) l l' :
  find p l = None -> find p (l ++ l') = find p l'.
Proof.
  induction l as [|y l IH]; cbn; [reflexivity|]. destruct (p y); [discriminate|auto].
Qed.

Lemma missing_id_not_listed ts v :
  bindable_value v ->
  find (fun t => Sql.eq (spotify_track_id t) v) ts = None ->
  ~ In v (map spotify_track_id ts).
Proof.
  intros Hv Hf Hin. apply in_map_iff in Hin as (t & <- & Ht).
  eapply find_none in Hf; [|exact Ht]. cbn in Hf.
  rewrite bindable_eq_refl in Hf by exact Hv. discriminate.
Qed.

Lemma NoDup_snoc {A} (l : list A) x : NoDup l -> ~ In x l -> NoDup (l ++ [x]).
Proof.
  intros Hl Hx. apply NoDup_app; [exact Hl|repeat constructor; auto|].
  intros y Hy [<-|[]]. contradiction.
Qed.

(** ** The upsert stage *)

(** What one successful pass of the loop body does to the session. *)
Lemma store_item_Ok env u idx it w w' :
  app.store_item env u idx it w = (Ok tt, w') ->
  bindable_value (item_id it)
  /\ users (sess w') = users (sess w)
  /\ exists t row,
       find (fun t => Sql.eq (spotify_track_id t) (item_id it)) (tracks (sess w')) = Some t
       /\ user_top_tracks (sess w') = (user_top_tracks (sess w) ++ [row])%list
       /\ ranking_key row = (u_id u, t_id t, idx + 1)
       /\ (tracks (sess w') = tracks (sess w)
           \/ (find (fun t => Sql.eq (spotify_track_id t) (item_id it)) (tracks (sess w)) = None
               /\ tracks (sess w') = (tracks (sess w) ++ [t])%list
               /\ spotify_track_id t = item_id it
               /\ t_id t = Sql.next_pk (map t_id (tracks (sess w))))).
Proof.
  unfold app.store_item. intros H.
  apply bind_Ok_inv in H as (sid & w1 & Hid & H). apply lift_inv in Hid as [Hid ->].
  assert (Hitem : item_id it = sid) by (unfold item_id; now rewrite <- Hid).
  apply bind_Ok_inv in H as (nm & w1 & H1 & H). apply lift_inv in H1 as [_ ->].
  apply bind_Ok_inv in H as (aj & w1 & H1 & H). apply lift_inv in H1 as [_ ->].
  apply bind_Ok_inv in H as (ai & w1 & H1 & H). apply lift_inv in H1 as [_ ->].
  apply bind_Ok_inv in H as (names & w1 & H1 & H). apply comprehension_lift in H1 as ->.
  apply bind_Ok_inv in H as (artists & w1 & H1 & H). apply lift_inv in H1 as [_ ->].
  apply bind_Ok_inv in H as (albj & w1 & H1 & H). apply lift_inv in H1 as [_ ->].
  apply bind_Ok_inv in H as (alb & w1 & H1 & H). apply lift_inv in H1 as [_ ->].
  apply bind_Ok_inv in H as (found & w1 & Hq & H).
  apply first_track_Ok in Hq as (-> & Hbind & Hfound).
  rewrite Hitem. split; [exact Hbind|].
  apply bind_Ok_inv in H as (t & w2 & Ht & H).
  apply bind_Ok_inv in H as (now & w3 & Hnow & H).
  injection Hnow as <- <-. injection H as <-. cbn [sess users tracks user_top_tracks].
  destruct found as [t0|].
  - injection Ht as <- <-. split; [reflexivity|].
    eexists _, _. split; [symmetry; exact Hfound|]. split; [reflexivity|]. split; [reflexivity|].
    now left.
  - apply bind_Ok_inv in Ht as (t1 & w4 & Hadd & Ht).
    apply bind_Ok_inv in Ht as ([] & w5 & Hc & Ht). injection Ht as <- <-.
    apply commit_Ok in Hc. subst w5. injection Hadd as <- <-.
    cbn [sess users tracks user_top_tracks]. split; [reflexivity|].
    eexists _, _. split.
    { rewrite find_app_missing by now symmetry. cbn.
      now rewrite bindable_eq_refl. }
    split; [reflexivity|]. split; [reflexivity|]. right.
    split; [now symmetry|]. repeat split.
Qed.

Lemma track_pk_found ts v t :
  find (fun t => Sql.eq (spotify_track_id t) v) ts = Some t -> track_pk ts v = t_id t.
Proof. unfold track_pk. now intros ->. Qed.

(** What a successful run of the whole loop does to the session. *)
Lemma upsert_loop_Ok env u items :
  forall idx w w',
    for_enumerate idx items (app.store_item env u) w = (Ok tt, w') ->
    users (sess w') = users (sess w)
    /\ exists rows new,
         user_top_tracks (sess w') = (user_top_tracks (sess w) ++ rows)%list
         /\ tracks (sess w') = (tracks (sess w) ++ new)%list
         /\ map ranking_key rows = expected_rankings (u_id u) (tracks (sess w')) idx items
         /\ Forall (fun it => bindable_value (item_id it)
                              /\ in_catalog (tracks (sess w')) (item_id it)) items
         /\ (NoDup (map spotify_track_id (tracks (sess w))) ->
             NoDup (map spotify_track_id (tracks (sess w'))))
         /\ (NoDup (map t_id (tracks (sess w))) -> NoDup (map t_id (tracks (sess w'))))
         /\ (Forall (fun it => in_catalog (tracks (sess w)) (item_id it)) items -> new = []).
Proof.
  induction items as [|it rest IH]; intros idx w w'; cbn [for_enumerate].
  - intros [= <-]. split; [reflexivity|]. exists [], [].
    rewrite !app_nil_r. repeat split; auto.
  - intros H. apply bind_Ok_inv in H as ([] & w1 & Hstep & Hrest).
    apply store_item_Ok in Hstep as (Hbind & Husers & t & row & Hfind & Hrows & Hkey & Hnew).
    apply IH in Hrest as (Husers' & rows & new & Hrows' & Hnew' & Hexp & Hall & Hids & Hpks & Hnone).
    split; [congruence|].
    assert (Hfind' : find (fun t => Sql.eq (spotify_track_id t) (item_id it))
                          (tracks (sess w')) = Some t)
      by (rewrite Hnew'; now apply find_app_found).
    assert (Hrank : map ranking_key (row :: rows)
                    = expected_rankings (u_id u) (tracks (sess w')) idx (it :: rest)).
    { cbn [map expected_rankings].
      now rewrite Hexp, Hkey, (track_pk_found _ _ _ Hfind'). }
    assert (Hitems : Forall (fun it => bindable_value (item_id it)
                                       /\ in_catalog (tracks (sess w')) (item_id it))
                            (it :: rest)).
    { constructor; [|exact Hall]. split; [exact Hbind|now exists t]. }
    assert (Hutt : user_top_tracks (sess w')
                   = (user_top_tracks (sess w) ++ row :: rows)%list)
      by (rewrite Hrows', Hrows, <- app_assoc; reflexivity).
    destruct Hnew as [Hsame|(Hmiss & Happ & Hsid & Hpk)].
    + exists (row :: rows), new. rewrite Hsame in *.
      repeat (split; [assumption|]).
      intros Hin. apply Hnone. now inversion Hin.
    + exists (row :: rows), (t :: new).
      split; [exact Hutt|].
      split; [rewrite Hnew', Happ, <- app_assoc; reflexivity|].
      split; [exact Hrank|]. split; [exact Hitems|].
      split.
      { intros Hnd. apply Hids. rewrite Happ, map_app. cbn [map].
        apply NoDup_snoc; [exact Hnd|]. rewrite Hsid.
        now apply missing_id_not_listed. }
      split.
      { intros Hnd. apply Hpks. rewrite Happ, map_app. cbn [map].
        apply NoDup_snoc; [exact Hnd|]. rewrite Hpk. apply next_pk_fresh. }
      intros Hin. inversion Hin as [|? ? [t0 Ht0] _]. congruence.
Qed.

(** ** The feature stage *)

Lemma same_metadata_refl w : same_metadata w w.
Proof. intros _. auto. Qed.

Lemma metadata_pks ts : map t_id ts = map (fun m => fst (fst (fst (fst m)))) (map metadata ts).
Proof. rewrite map_map. reflexivity. Qed.

Lemma metadata_ids ts :
  map spotify_track_id ts = map (fun m => snd (fst (fst (fst m)))) (map metadata ts).
Proof. rewrite map_map. reflexivity. Qed.

Lemma same_metadata_trans a b c : same_metadata a b -> same_metadata b c -> same_metadata a c.
Proof.
  unfold same_metadata. intros Hab Hbc Hnd.
  destruct (Hab Hnd) as (H1 & H2 & H3).
  assert (Hnd' : NoDup (map t_id (tracks (sess b))))
    by (rewrite metadata_pks, H1, <- metadata_pks; exact Hnd).
  destruct (Hbc Hnd') as (H4 & H5 & H6). repeat split; congruence.
Qed.

Lemma same_metadata_of_session w w' : sess w' = sess w -> same_metadata w w'.
Proof. intros E _. rewrite E. auto. Qed.

Lemma utcnow_same_metadata env : keeps same_metadata (utcnow env).
Proof. intros w o w' [= _ <-]. now apply same_metadata_of_session. Qed.

Lemma requests_send_same_metadata env rq : keeps same_metadata (requests_send env rq).
Proof. intros w o w' [= _ <-]. now apply same_metadata_of_session. Qed.

Lemma flush_same_session w o w' : Sql.flush w = (o, w') -> w' = w.
Proof. unfold Sql.flush. destruct (Sql.pending_error w); now intros [= _ <-]. Qed.

Lemma commit_same_session w o w' : Sql.commit w = (o, w') -> sess w' = sess w.
Proof.
  unfold Sql.commit, bind. destruct (Sql.flush w) as [[[]|e] w1] eqn:E;
    apply flush_same_session in E; subst w1; now intros [= _ <-].
Qed.

Lemma commit_same_metadata : keeps same_metadata Sql.commit.
Proof. intros w o w' H. apply same_metadata_of_session. eapply commit_same_session, H. Qed.

Lemma replace_track_metadata t af ts :
  In t ts -> NoDup (map t_id ts) ->
  map metadata (Sql.replace_track (app.with_audio_features t af) ts) = map metadata ts.
Proof.
  intros Hin Hnd. unfold Sql.replace_track. rewrite map_map. apply map_ext_in.
  intros r Hr. cbn [t_id app.with_audio_features].
  destruct (t_id r =? t_id t) eqn:E; [|reflexivity].
  apply Z.eqb_eq in E.
  assert (r = t).
  { clear af. induction ts as [|x ts IH]; [contradiction|].
    cbn [map] in Hnd. inversion Hnd as [|? ? Hx Hnd']; subst.
    destruct Hin as [->|Hin], Hr as [->|Hr]; auto.
    - exfalso. apply Hx. rewrite <- E. now apply in_map.
    - exfalso. apply Hx. rewrite E. now apply in_map. }
  now subst.
Qed.

Lemma store_audio_feature_same_metadata af : keeps same_metadata (app.store_audio_feature af).
Proof.
  intros w o w' H. unfold app.store_audio_feature in H.
  destruct (negb (Py.truthy af)); [injection H as _ <-; apply same_metadata_refl|].
  unfold bind at 1 in H. unfold lift at 1 in H.
  destruct (Py.getitem af "id") as [sid|e]; [|injection H as _ <-; apply same_metadata_refl].
  unfold bind at 1 in H.
  destruct (Sql.first_track sid w) as [[found|e] w1] eqn:Hq.
  - apply first_track_Ok in Hq as (-> & _ & ->).
    destruct (find _ (tracks (sess w))) as [t|] eqn:Hf;
      [|injection H as _ <-; apply same_metadata_refl].
    injection H as _ <-. intros Hnd. cbn [sess tracks user_top_tracks users].
    split; [|auto]. apply replace_track_metadata; [|exact Hnd].
    now apply find_some in Hf.
  - injection H as _ <-. unfold Sql.first_track, bind in Hq.
    destruct (Sql.flush w) as [[[]|e1] w2] eqn:Hfl; apply flush_same_session in Hfl; subst w2.
    + destruct sid; cbn in Hq; injection Hq as _ <-; apply same_metadata_refl.
    + injection Hq as _ <-. apply same_metadata_refl.
Qed.

#[local] Hint Resolve utcnow_same_metadata requests_send_same_metadata commit_same_metadata
  store_audio_feature_same_metadata : keeps.

Lemma fetch_audio_features_same_metadata env token items :
  keeps same_metadata (app.fetch_audio_features env token items).
Proof.
  unfold app.fetch_audio_features, backend.spotify_client.get_audio_features,
    backend.spotify_client.api_get.
  keeps_steps same_metadata_refl same_metadata_trans.
Qed.

(** A feature stage that returns leaves the database equal to the
    session. *)
Lemma fetch_audio_features_committed env token items w w' :
  app.fetch_audio_features env token items w = (Ok tt, w') ->
  db w = sess w -> db w' = sess w'.
Proof.
  unfold app.fetch_audio_features. intros H Hdb.
  apply bind_Ok_inv in H as (ids & w1 & Hids & H). apply comprehension_lift in Hids as ->.
  destruct ids as [|i ids]; [now injection H as <-|].
  apply bind_Ok_inv in H as (? & ? & _ & H).
  apply bind_Ok_inv in H as (? & ? & _ & H).
  apply bind_Ok_inv in H as (? & ? & _ & H).
  apply bind_Ok_inv in H as (? & ? & _ & H).
  apply commit_Ok in H. now subst w'.
Qed.

(** ** Facts that depend on the metadata of the catalog only *)

Lemma find_by_id_metadata ts ts' v :
  map metadata ts = map metadata ts' ->
  option_map t_id (find (fun t => Sql.eq (spotify_track_id t) v) ts)
  = option_map t_id (find (fun t => Sql.eq (spotify_track_id t) v) ts').
Proof.
  revert ts'. induction ts as [|t ts IH]; intros [|t' ts']; try discriminate; [reflexivity|].
  cbn [map find]. intros [= Hpk Hsid _ _ _ Hrest]. rewrite Hsid.
  destruct (Sql.eq (spotify_track_id t') v); cbn; [now rewrite Hpk|auto].
Qed.

Lemma track_pk_metadata ts ts' v :
  map metadata ts = map metadata ts' -> track_pk ts v = track_pk ts' v.
Proof.
  intros H. apply (find_by_id_metadata _ _ v) in H. unfold track_pk.
  destruct (find _ ts), (find _ ts'); cbn in H; congruence.
Qed.

Lemma in_catalog_metadata ts ts' v :
  map metadata ts = map metadata ts' -> in_catalog ts v -> in_catalog ts' v.
Proof.
  intros H [t Ht]. apply (find_by_id_metadata _ _ v) in H. rewrite Ht in H.
  unfold in_catalog. destruct (find _ ts'); [eauto|discriminate].
Qed.

Lemma expected_rankings_metadata uid ts ts' items :
  map metadata ts = map metadata ts' ->
  forall idx, expected_rankings uid ts idx items = expected_rankings uid ts' idx items.
Proof.
  intros H. induction items as [|it items IH]; intros idx; cbn [expected_rankings];
    [reflexivity|]. now rewrite IH, (track_pk_metadata _ _ _ H).
Qed.

Lemma catalog_count_one ts v :
  NoDup (map spotify_track_id ts) -> bindable_value v -> in_catalog ts v ->
  catalog_count ts v = 1%nat.
Proof.
  unfold catalog_count, in_catalog. intros Hnd Hv [t Ht].
  induction ts as [|x ts IH]; [discriminate|].
  cbn [map] in Hnd. inversion Hnd as [|? ? Hx Hnd']; subst.
  cbn [find filter] in *. destruct (Sql.eq (spotify_track_id x) v) eqn:E.
  - apply bindable_eq_true in E; [|exact Hv]. cbn [List.length]. f_equal.
    assert (Hnone : forall y, In y ts -> Sql.eq (spotify_track_id y) v = false).
    { intros y Hy. destruct (Sql.eq (spotify_track_id y) v) eqn:Ey; [|reflexivity].
      apply bindable_eq_true in Ey; [|exact Hv]. exfalso. apply Hx.
      rewrite E, <- Ey. now apply in_map. }
    clear -Hnone. induction ts as [|y ts IH]; [reflexivity|].
    cbn [filter]. rewrite (Hnone y (or_introl eq_refl)). apply IH.
    intros z Hz. apply Hnone. now right.
  - now apply IH.
Qed.

(** ** The users across a run *)

(** A token manager call that returns has left the users alone. *)
Lemma ensure_valid_access_token_users env u w tok w1 :
  app.ensure_valid_access_token env u w = (Ok tok, w1) ->
  users (db w1) = users (db w) /\ users (sess w1) = users (sess w).
Proof.
  intros H. apply ensure_valid_access_token_Ok in H as (_ & _ & ->).
  destruct (after_test_facts u w) as (-> & -> & _). auto.
Qed.

(** The provider's list of top items, as the handler reads it. *)
Lemma get_user_top_tracks_Ok env token limit items w top w' :
  (forall history tok,
      exists resp top,
        send env history (top_tracks_request tok limit) = Ok resp
        /\ ok resp = true /\ json_body resp = Some top
        /\ Py.get top "items" (PList []) = Ok (PList items)) ->
  backend.spotify_client.get_user_top_tracks env token limit w = (Ok top, w') ->
  Py.get top "items" (PList []) = Ok (PList items).
Proof.
  intros Hfetch. unfold backend.spotify_client.get_user_top_tracks,
    backend.spotify_client.api_get.
  change (mkRequest GET _ (Bearer token) _) with (top_tracks_request token limit).
  destruct (Hfetch (sent w) token) as (resp & top' & Hs & Hok & Hj & Hitems).
  unfold bind, requests_send. rewrite Hs, Hok, Hj. cbn. now intros [= <- _].
Qed.

Lemma get_user_top_tracks_same_catalog env token limit :
  keeps same_catalog (backend.spotify_client.get_user_top_tracks env token limit).
Proof. apply api_get_same_catalog. Qed.

Lemma get_user_top_tracks_same_users env token limit :
  keeps same_session_users (backend.spotify_client.get_user_top_tracks env token limit).
Proof. apply api_get_same_users. Qed.

(** ** One run of the pipeline *)

(** What a run of the top-tracks handler that returns has stored, for a
    catalog with distinct external ids and distinct primary keys and a
    provider whose list of top items is [items]. *)
Lemma api_top_tracks_Ok env id limit items w v w' :
  (forall history tok,
      exists resp top,
        send env history (top_tracks_request tok limit) = Ok resp
        /\ ok resp = true /\ json_body resp = Some top
        /\ Py.get top "items" (PList []) = Ok (PList items)) ->
  NoDup (map spotify_track_id (tracks (db w))) ->
  NoDup (map t_id (tracks (db w))) ->
  app.api_top_tracks env id limit w = (Ok v, w') ->
  exists u rows new,
    user_named id (db w) = Some u
    /\ (exists u2, user_named id (db w') = Some u2 /\ u_id u2 = u_id u)
    /\ user_top_tracks (db w') = (user_top_tracks (db w) ++ rows)%list
    /\ map ranking_key rows = expected_rankings (u_id u) (tracks (db w')) 0 items
    /\ map metadata (tracks (db w')) = map metadata (tracks (db w) ++ new)
    /\ (Forall (fun it => in_catalog (tracks (db w)) (item_id it)) items -> new = [])
    /\ Forall (fun it => bindable_value (item_id it)
                         /\ in_catalog (tracks (db w')) (item_id it)) items
    /\ NoDup (map spotify_track_id (tracks (db w')))
    /\ NoDup (map t_id (tracks (db w')))
    /\ v = PDict [ ("fetched", PInt (Z.of_nat (List.length items))) ].
Proof.
  intros Hfetch Hids Hpks H. unfold app.api_top_tracks in H.
  apply bind_Ok_inv in H as ([] & w0 & Hopen & H).
  injection Hopen as <-. fold (session_opened w) in H.
  apply bind_Ok_inv in H as (found & w0 & Hq & H).
  rewrite first_user_opened in Hq. injection Hq as <- <-.
  destruct (user_named id (db w)) as [u|] eqn:Hu; [|discriminate].
  apply bind_Ok_inv in H as (tok & w1 & Htok & H).
  pose proof (ensure_valid_access_token_same_catalog env u _ _ _ Htok) as (Ht1 & Hr1 & _ & _).
  pose proof (ensure_valid_access_token_users env u _ _ _ Htok) as Husers.
  cbn [session_opened sess db] in Ht1, Hr1, Husers.
  apply bind_Ok_inv in H as (top & w2 & Htop & H).
  pose proof (get_user_top_tracks_same_catalog env tok limit _ _ _ Htop) as (Ht2 & Hr2 & _ & _).
  pose proof (get_user_top_tracks_same_users env tok limit _ _ _ Htop) as Hu2.
  apply (get_user_top_tracks_Ok env tok limit items _ _ _ Hfetch) in Htop.
  apply bind_Ok_inv in H as (its & w3 & Hits & H). apply lift_inv in Hits as [Hits ->].
  rewrite Htop in Hits. injection Hits as ->.
  apply bind_Ok_inv in H as (l & w3 & Hl & H). apply lift_inv in Hl as [Hl ->].
  injection Hl as ->.
  apply bind_Ok_inv in H as ([] & w3 & Hloop & H).
  apply upsert_loop_Ok in Hloop
    as (Hu3 & rows & new & Hrows & Hnew & Hexp & Hall & Hids3 & Hpks3 & Hnone).
  apply bind_Ok_inv in H as ([] & w4 & Hc & H). apply commit_Ok in Hc.
  apply bind_Ok_inv in H as ([] & w5 & Hfeat & H).
  pose proof (fetch_audio_features_same_metadata env tok items _ _ _ Hfeat) as Hmeta.
  apply fetch_audio_features_committed in Hfeat; [|subst w4; reflexivity].
  apply bind_Ok_inv in H as (n & w6 & Hn & H). apply lift_inv in Hn as [Hn ->].
  injection Hn as <-. injection H as <- <-.
  rewrite Ht2, Ht1 in Hnew, Hids3, Hpks3, Hnone.
  rewrite Hr2, Hr1 in Hrows.
  assert (Hsess4 : sess w4 = sess w3) by (subst w4; reflexivity).
  destruct Hmeta as (Hm & Hr5 & Hu5); [rewrite Hsess4; auto|].
  rewrite Hsess4 in Hm, Hr5, Hu5.
  exists u, rows, new. rewrite Hfeat. split; [reflexivity|]. split.
  { unfold user_named. rewrite Hu5, Hu3. unfold same_session_users in Hu2. rewrite Hu2.
    destruct Husers as [_ ->]. eauto. }
  split; [congruence|].
  split; [now rewrite (expected_rankings_metadata _ _ _ _ Hm)|].
  split; [congruence|]. split; [exact Hnone|]. split.
  { eapply Forall_impl; [|exact Hall]. cbn beta. intros it [Hb Hin]. split; [exact Hb|].
    eapply in_catalog_metadata; [symmetry; exact Hm|exact Hin]. }
  split; [rewrite metadata_ids, Hm, <- metadata_ids; auto|].
  split; [rewrite metadata_pks, Hm, <- metadata_pks; auto|reflexivity].
Qed.

(** C6. Let the provider answer every top-items call with the same list,
    and let the catalog start with distinct external ids and distinct
    primary keys. After two runs of the handler for a user that both
    return: each run has appended one ranking row per item, in the order
    of the items, with ranks 1, 2, ... and linking the user to the item's
    catalog row, so every item has exactly two ranking rows among the new
    ones; the catalog has exactly one row for the external id of every
    item; the second run has added no catalog row and has left the
    metadata of every catalog row as the first run left it; and the first
    run has kept the metadata of the rows that were there before it. Both
    runs report the number of items. *)
Theorem ingestion_twice_appends_rankings_once_catalog
        (env : Env) (id : string) (limit : Z) (items : list pyval) (w : World)
        (v1 v2 : pyval) :
  (forall history tok,
      exists resp top,
        send env history (top_tracks_request tok limit) = Ok resp
        /\ ok resp = true /\ json_body resp = Some top
        /\ Py.get top "items" (PList []) = Ok (PList items)) ->
  NoDup (map spotify_track_id (tracks (db w))) ->
  NoDup (map t_id (tracks (db w))) ->
  let r1 := app.api_top_tracks env id limit w in
  let r2 := app.api_top_tracks env id limit (snd r1) in
  fst r1 = Ok v1 ->
  fst r2 = Ok v2 ->
  exists u first second added,
    user_named id (db w) = Some u
    /\ user_top_tracks (db (snd r2)) = (user_top_tracks (db w) ++ first ++ second)%list
    /\ map ranking_key first = expected_rankings (u_id u) (tracks (db (snd r2))) 0 items
    /\ map ranking_key second = expected_rankings (u_id u) (tracks (db (snd r2))) 0 items
    /\ (forall it, In it items ->
          catalog_count (tracks (db (snd r2))) (item_id it) = 1%nat)
    /\ map metadata (tracks (db (snd r1))) = map metadata (tracks (db w) ++ added)
    /\ map metadata (tracks (db (snd r2))) = map metadata (tracks (db (snd r1)))
    /\ v1 = PDict [ ("fetched", PInt (Z.of_nat (List.length items))) ]
    /\ v2 = v1.
Proof.
  intros Hfetch Hids Hpks. cbv zeta.
  destruct (app.api_top_tracks env id limit w) as [o1 w1] eqn:E1. cbn [fst snd].
  destruct (app.api_top_tracks env id limit w1) as [o2 w2] eqn:E2. cbn [fst snd].
  intros -> ->.
  destruct (api_top_tracks_Ok _ _ _ _ _ _ _ Hfetch Hids Hpks E1)
    as (u & first & added & Hu & (u2 & Hu2 & Hpk2) & Hrows1 & Hexp1 & Hm1 & _ & Hall1
        & Hids1 & Hpks1 & ->).
  destruct (api_top_tracks_Ok _ _ _ _ _ _ _ Hfetch Hids1 Hpks1 E2)
    as (u' & second & added2 & Hu' & _ & Hrows2 & Hexp2 & Hm2 & Hnone & Hall2
        & Hids2 & _ & ->).
  rewrite Hu2 in Hu'. injection Hu' as <-.
  rewrite Hnone, app_nil_r in Hm2
    by (eapply Forall_impl; [|exact Hall1]; cbn beta; tauto).
  exists u, first, second, added. split; [exact Hu|].
  split; [rewrite Hrows2, Hrows1, <- app_assoc; reflexivity|].
  split; [now rewrite (expected_rankings_metadata _ _ _ _ Hm2)|].
  split; [now rewrite <- Hpk2|].
  split.
  { intros it Hin. rewrite Forall_forall in Hall2. destruct (Hall2 it Hin) as [Hb Hc].
    now apply catalog_count_one. }
  auto.
Qed.

Lemma ingestion_twice_appends_rankings_once_catalog_witness :
  exists first second,
    user_top_tracks
      (db (snd (app.api_top_tracks Fixture.env_ok "alice" 50
                  (snd (app.api_top_tracks Fixture.env_ok "alice" 50
                          (Fixture.world_of Fixture.alice_valid))))))
    = (first ++ second)%list
    /\ map ranking_key first = map ranking_key second.
Proof.
  assert (Hfetch : forall (history : list Request) (tok : pyval),
             exists resp top,
               send Fixture.env_ok history (top_tracks_request tok 50) = Ok resp
               /\ ok resp = true /\ json_body resp = Some top
               /\ Py.get top "items" (PList []) = Ok (PList Fixture.two_items)).
  { intros history tok. eexists. eexists. repeat split. }
  destruct (ingestion_twice_appends_rankings_once_catalog
              Fixture.env_ok "alice" 50 Fixture.two_items
              (Fixture.world_of Fixture.alice_valid)
              (PDict [ ("fetched", PInt 2) ]) (PDict [ ("fetched", PInt 2) ])
              Hfetch (NoDup_nil _) (NoDup_nil _) eq_refl eq_refl)
    as (u & first & second & added & _ & Hrows & H1 & H2 & _).
  exists first, second. split; [exact Hrows|]. now rewrite H1, H2.
Defined.

(** * Further properties of the code *)

(** ** Identifier normalisation: separators and blank input *)







Lemma lstrip_all_space s : all_space s = true -> PyStr.lstrip s = "".
Proof.
  unfold all_space. induction s as [|a r IH]; [reflexivity|].
  cbn [list_ascii_of_string forallb PyStr.lstrip]. intros H.
  apply andb_true_iff in H as [-> Hr]. auto.
Qed.

(** X2. A non-empty input that consists of whitespace only is not
    rejected: the result is the empty identifier, not [None]. *)
Theorem blank_track_id_is_empty_string (t : string) :
  t <> "" -> all_space t = true -> _normalize_track_id t = Some "".
Proof.
  intros Ht Hs. unfold _normalize_track_id.
  destruct (String.eqb t "") eqn:E; [apply String.eqb_eq in E; contradiction|].
  cbv zeta. unfold PyStr.strip. rewrite (lstrip_all_space _ Hs). reflexivity.
Qed.

Lemma blank_track_id_is_empty_string_witness :
  _normalize_track_id "   " = Some "".
Proof.
  exact (blank_track_id_is_empty_string "   " ltac:(discriminate) eq_refl).
Defined.

(** ** The clients: bodies without JSON, paths without a slash, swallowed failures *)

(** X3. A successful response whose body is not JSON: [api_get] of the
    client the application imports returns the body text, while the
    root-level copy raises [ValueError] (for a status other than 401). *)
Theorem api_get_without_json_body
        (env : Env) (w : World) (path : string) (token : pyval)
        (params : list (string * pyval)) (resp : Response) :
  ok resp = true ->
  json_body resp = None ->
  (send env (sent w) (backend_request path token params) = Ok resp ->
   fst (backend.spotify_client.api_get env path token params w) = Ok (PStr (text resp)))
  /\ (send env (sent w) (root_request path token params) = Ok resp ->
      status_code resp <> 401 ->
      fst (spotify_client.api_get env path token params w) = Raise ValueError).
Proof.
  intros Hok Hj. split.
  - intros Hsend. unfold backend.spotify_client.api_get.
    change (mkRequest GET _ (Bearer token) params) with (backend_request path token params).
    unfold bind, requests_send. now rewrite Hsend, Hok, Hj.
  - intros Hsend H401. unfold spotify_client.api_get.
    change (mkRequest GET _ (Bearer token) params) with (root_request path token params).
    unfold bind, requests_send. rewrite Hsend.
    destruct (status_code resp =? 401) eqn:E; [apply Z.eqb_eq in E; contradiction|].
    unfold raise_for_status, json. now rewrite Hok, Hj.
Qed.

Lemma api_get_without_json_body_witness :
  fst (backend.spotify_client.api_get
         (mkEnv (fun _ rq => Ok (mkResponse 200 (rq_url rq) "pong" None))
                (fun _ => 0) (fun _ => None) "" "" "")
         "/ping" PNone [] (Fixture.world_of Fixture.alice_valid))
  = Ok (PStr "pong").
Proof.
  exact (proj1 (api_get_without_json_body
                  (mkEnv (fun _ rq => Ok (mkResponse 200 (rq_url rq) "pong" None))
                         (fun _ => 0) (fun _ => None) "" "" "")
                  (Fixture.world_of Fixture.alice_valid) "/ping" PNone []
                  (mkResponse 200 "https://api.spotify.com/v1/ping" "pong" None)
                  eq_refl eq_refl) eq_refl).
Defined.

(** X4. [api_get] of the client the application imports supplies a missing
    leading slash: a path without one sends the same call, and gives the
    same result, as that path with the slash in front. *)
Theorem api_get_adds_leading_slash
        (env : Env) (path : string) (token : pyval) (params : list (string * pyval)) :
  PyStr.startswith "/" path = false ->
  backend.spotify_client.api_get env path token params
  = backend.spotify_client.api_get env ("/" ++ path) token params.
Proof.
  intros H. unfold backend.spotify_client.api_get. cbv zeta. rewrite H.
  replace (PyStr.startswith "/" ("/" ++ path)) with true; [reflexivity|].
  unfold PyStr.startswith. cbn. now destruct path.
Qed.

Lemma api_get_adds_leading_slash_witness :
  backend.spotify_client.api_get Fixture.env_ok "me" PNone []
  = backend.spotify_client.api_get Fixture.env_ok "/me" PNone [].
Proof. exact (api_get_adds_leading_slash Fixture.env_ok "me" PNone [] eq_refl). Defined.

(** X5. [get_audio_features] of the client the application imports never
    raises. When one of the ids is not a [str], it sends no call at all and
    returns [{"audio_features": None}]; the root-level copy raises
    [TypeError] there, also without sending a call. *)
Theorem get_audio_features_never_raises
        (env : Env) (token : pyval) (ids : list pyval) (w : World) :
  (exists v, fst (backend.spotify_client.get_audio_features env token ids w) = Ok v)
  /\ (forall e, Py.join "," ids = Raise e ->
        backend.spotify_client.get_audio_features env token ids w
        = (Ok (PDict [ ("audio_features", PNone) ]), w)
        /\ spotify_client.get_audio_features env token ids w = (Raise e, w)).
Proof.
  split.
  - unfold backend.spotify_client.get_audio_features, try_except.
    destruct ((_ <- lift (Py.join "," ids) ;; _) w) as [[v|e] w']; cbn; eauto.
  - intros e He. unfold backend.spotify_client.get_audio_features,
      spotify_client.get_audio_features, try_except, bind, lift. now rewrite He.
Qed.

Lemma get_audio_features_never_raises_witness :
  backend.spotify_client.get_audio_features Fixture.env_ok (PStr "old") [ PInt 7 ]
    (Fixture.world_of Fixture.alice_valid)
  = (Ok (PDict [ ("audio_features", PNone) ]), Fixture.world_of Fixture.alice_valid).
Proof.
  exact (proj1 (proj2 (get_audio_features_never_raises Fixture.env_ok (PStr "old") [ PInt 7 ]
                         (Fixture.world_of Fixture.alice_valid)) TypeError eq_refl)).
Defined.

(** ** The calls a handler sends *)

Lemma keeps_for_enumerate (R : World -> World -> Prop) {A}
      (l : list A) (body : Z -> A -> M unit) :
  (forall w, R w w) -> (forall a b c, R a b -> R b c -> R a c) ->
  (forall i x, keeps R (body i x)) -> forall start, keeps R (for_enumerate start l body).
Proof.
  intros Hrefl Htrans Hb. induction l as [|x l IH]; intros start; cbn [for_enumerate].
  - now apply keeps_ret.
  - apply keeps_bind; auto.
Qed.

Lemma sends_refl env w : sends env 0 w w.
Proof. exists []. rewrite app_nil_r. split; [reflexivity|]. split; [cbn; lia|reflexivity]. Qed.

Lemma sends_trans env a b w1 w2 w3 :
  sends env a w1 w2 -> sends env b w2 w3 -> sends env (a + b) w1 w3.
Proof.
  intros (l1 & E1 & L1 & F1) (l2 & E2 & L2 & F2). exists (l1 ++ l2)%list.
  rewrite E2, E1, <- app_assoc, length_app, forallb_app, F1, F2.
  split; [reflexivity|]. split; [lia|reflexivity].
Qed.

Lemma sends_le env a b w w' : (a <= b)%nat -> sends env a w w' -> sends env b w w'.
Proof. intros Hab (l & E & L & F). exists l. split; [exact E|]. split; [lia|exact F]. Qed.

Lemma sends_silent_trans env a b c : sends env 0 a b -> sends env 0 b c -> sends env 0 a c.
Proof. intros H1 H2. exact (sends_trans env 0 0 _ _ _ H1 H2). Qed.

Lemma keeps_sends_le env a b {A} (m : M A) :
  (a <= b)%nat -> keeps (sends env a) m -> keeps (sends env b) m.
Proof. intros Hab Hm w o w' H. eapply sends_le; [exact Hab|]. eapply Hm, H. Qed.

Lemma sends_bind env a b {A B} (m : M A) (k : A -> M B) :
  keeps (sends env a) m -> (forall x, keeps (sends env b) (k x)) ->
  keeps (sends env (a + b)) (bind m k).
Proof.
  intros Hm Hk w o w'. unfold bind. destruct (m w) as [[x|e] w1] eqn:E; intros H.
  - eapply sends_trans; [eapply Hm, E|eapply Hk, H].
  - injection H as _ <-. eapply sends_le; [|eapply Hm, E]. lia.
Qed.

Lemma sends_try_except env a b {A} (m : M A) (h : exn -> M A) :
  keeps (sends env a) m -> (forall e, keeps (sends env b) (h e)) ->
  keeps (sends env (a + b)) (try_except m h).
Proof.
  intros Hm Hh w o w'. unfold try_except. destruct (m w) as [[x|e] w1] eqn:E; intros H.
  - injection H as _ <-. eapply sends_le; [|eapply Hm, E]. lia.
  - eapply sends_trans; [eapply Hm, E|eapply Hh, H].
Qed.

(** A step that leaves the log of calls alone. *)
Lemma silent env {A} (m : M A) :
  (forall w, sent (snd (m w)) = sent w) -> keeps (sends env 0) m.
Proof.
  intros Hm w o w' H. exists []. rewrite app_nil_r. specialize (Hm w).
  rewrite H in Hm. split; [exact Hm|]. split; [cbn; lia|reflexivity].
Qed.

Ltac silent_step :=
  apply silent; intros ?w;
  cbv beta iota delta
      [Sql.set_sess Sql.mark_user Sql.mark_track Sql.get_db Sql.flush Sql.commit
       Sql.bindable Sql.first_user Sql.first_track Sql.assign_user Sql.assign_track
       Sql.add_user Sql.add_track Sql.add_user_top_track Sql.add_in_second_session
       utcnow raise_for_status json bind ret raise lift];
  repeat match goal with
         | |- context [match ?x with _ => _ end] =>
             lazymatch x with
             | context [match _ with _ => _ end] => fail
             | _ => destruct x
             end
         end;
  reflexivity.

Lemma utcnow_silent env : keeps (sends env 0) (utcnow env).
Proof. silent_step. Qed.
Lemma raise_for_status_silent env r : keeps (sends env 0) (raise_for_status r).
Proof. silent_step. Qed.
Lemma json_silent env r : keeps (sends env 0) (json r).
Proof. silent_step. Qed.
Lemma get_db_silent env : keeps (sends env 0) Sql.get_db.
Proof. silent_step. Qed.
Lemma commit_silent env : keeps (sends env 0) Sql.commit.
Proof. silent_step. Qed.
Lemma first_user_silent env v : keeps (sends env 0) (Sql.first_user v).
Proof. silent_step. Qed.
Lemma first_track_silent env v : keeps (sends env 0) (Sql.first_track v).
Proof. silent_step. Qed.
Lemma assign_user_silent env u : keeps (sends env 0) (Sql.assign_user u).
Proof. silent_step. Qed.
Lemma assign_track_silent env t : keeps (sends env 0) (Sql.assign_track t).
Proof. silent_step. Qed.
Lemma add_user_silent env mk : keeps (sends env 0) (Sql.add_user mk).
Proof. silent_step. Qed.
Lemma add_track_silent env mk : keeps (sends env 0) (Sql.add_track mk).
Proof. silent_step. Qed.
Lemma add_user_top_track_silent env mk : keeps (sends env 0) (Sql.add_user_top_track mk).
Proof. silent_step. Qed.
Lemma add_in_second_session_silent env u : keeps (sends env 0) (Sql.add_in_second_session u).
Proof. silent_step. Qed.

#[local] Hint Resolve utcnow_silent raise_for_status_silent json_silent get_db_silent
  commit_silent first_user_silent first_track_silent assign_user_silent assign_track_silent
  add_user_silent add_track_silent add_user_top_track_silent add_in_second_session_silent : keeps.

Lemma requests_send_once env rq :
  request_ok env rq = true -> keeps (sends env 1) (requests_send env rq).
Proof.
  intros Hrq w o w' [= _ <-]. exists [rq]. cbn. rewrite Hrq.
  split; [reflexivity|]. split; [lia|reflexivity].
Qed.

Lemma backend_request_ok env path token params :
  request_ok env (backend_request path token params) = true.
Proof.
  unfold request_ok, backend_request. cbn [rq_auth rq_method rq_url].
  destruct (PyStr.startswith "/" path) eqn:E; cbn.
  - exact E.
  - now destruct path.
Qed.

Lemma token_request_ok env fields :
  request_ok env (mkRequest POST "https://accounts.spotify.com/api/token"
                            (Basic (CLIENT_ID env) (CLIENT_SECRET env)) fields) = true.
Proof.
  unfold request_ok. cbn [rq_auth rq_method rq_url].
  now rewrite !String.eqb_refl.
Qed.

Lemma api_get_once env path token params :
  keeps (sends env 1) (backend.spotify_client.api_get env path token params).
Proof.
  unfold backend.spotify_client.api_get. cbv zeta.
  apply (sends_bind env 1 0).
  - apply requests_send_once. apply (backend_request_ok env path token params).
  - intros r. keeps_steps (sends_refl env) (sends_silent_trans env).
Qed.

Lemma refresh_access_token_once env rt :
  keeps (sends env 1) (backend.spotify_client.refresh_access_token env rt).
Proof.
  unfold backend.spotify_client.refresh_access_token. cbv zeta.
  apply (sends_bind env 1 0).
  - apply requests_send_once, token_request_ok.
  - intros r. keeps_steps (sends_refl env) (sends_silent_trans env).
Qed.

Lemma exchange_code_for_token_once env code :
  keeps (sends env 1) (backend.spotify_client.exchange_code_for_token env code).
Proof.
  unfold backend.spotify_client.exchange_code_for_token. cbv zeta.
  apply (sends_bind env 1 0).
  - apply requests_send_once, token_request_ok.
  - intros r. keeps_steps (sends_refl env) (sends_silent_trans env).
Qed.

Lemma get_audio_features_once env token ids :
  keeps (sends env 1) (backend.spotify_client.get_audio_features env token ids).
Proof.
  unfold backend.spotify_client.get_audio_features.
  apply (sends_try_except env 1 0).
  - apply (sends_bind env 0 1).
    + keeps_steps (sends_refl env) (sends_silent_trans env).
    + intros i. apply api_get_once.
  - intros e. keeps_steps (sends_refl env) (sends_silent_trans env).
Qed.

Lemma ensure_valid_access_token_once env u :
  keeps (sends env 1) (app.ensure_valid_access_token env u).
Proof.
  unfold app.ensure_valid_access_token. apply (sends_bind env 0 1).
  - unfold app.token_is_stale. keeps_steps (sends_refl env) (sends_silent_trans env).
  - intros [|].
    + unfold app.refresh_and_persist. apply (sends_bind env 1 0).
      * apply refresh_access_token_once.
      * intros tj. keeps_steps (sends_refl env) (sends_silent_trans env).
    + apply (keeps_sends_le env 0 1); [lia|].
      keeps_steps (sends_refl env) (sends_silent_trans env).
Qed.

Lemma store_item_silent env u idx it : keeps (sends env 0) (app.store_item env u idx it).
Proof.
  unfold app.store_item. keeps_steps (sends_refl env) (sends_silent_trans env).
Qed.

Lemma store_audio_feature_silent env af : keeps (sends env 0) (app.store_audio_feature af).
Proof.
  unfold app.store_audio_feature. keeps_steps (sends_refl env) (sends_silent_trans env).
Qed.

#[local] Hint Resolve store_item_silent store_audio_feature_silent : keeps.

Lemma fetch_audio_features_once env token items :
  keeps (sends env 1) (app.fetch_audio_features env token items).
Proof.
  unfold app.fetch_audio_features. apply (sends_bind env 0 1).
  - keeps_steps (sends_refl env) (sends_silent_trans env).
  - intros [|i ids].
    + apply (keeps_sends_le env 0 1); [lia|].
      keeps_steps (sends_refl env) (sends_silent_trans env).
    + apply (sends_bind env 1 0); [apply get_audio_features_once|].
      intros afj. keeps_steps (sends_refl env) (sends_silent_trans env).
Qed.

(** X6. No handler repeats a call, and every call has the shape of its
    kind (token endpoint: POST with the basic-auth header of the configured
    credentials; anything else: GET below the API base with a bearer
    token). However it ends, the profile handler sends at most two calls,
    the callback at most two, and the top-tracks handler at most three:
    the feature call is sent at most once whatever the number of items. *)
Theorem handlers_send_each_call_once (env : Env) (w : World) :
  (forall id, sends env 2 w (snd (app.api_me env id w)))
  /\ (forall code state, sends env 2 w (snd (app.auth_callback env code state w)))
  /\ (forall id limit, sends env 3 w (snd (app.api_top_tracks env id limit w))).
Proof.
  split; [|split].
  - intros id. destruct (app.api_me env id w) as [o w'] eqn:E. cbn [snd].
    revert w o w' E. change (keeps (sends env 2) (app.api_me env id)).
    unfold app.api_me.
    apply (sends_bind env 0 2); [auto with keeps|]. intros _.
    apply (sends_bind env 0 2); [auto with keeps|]. intros [u|].
    + apply (sends_bind env 1 1); [apply ensure_valid_access_token_once|].
      intros tok. apply api_get_once.
    + apply (keeps_sends_le env 0 2); [lia|].
      keeps_steps (sends_refl env) (sends_silent_trans env).
  - intros code state. destruct (app.auth_callback env code state w) as [o w'] eqn:E.
    cbn [snd]. revert w o w' E. change (keeps (sends env 2) (app.auth_callback env code state)).
    unfold app.auth_callback. destruct code as [code|].
    + apply (sends_bind env 1 1); [apply exchange_code_for_token_once|]. intros tj.
      apply (sends_bind env 0 1); [keeps_steps (sends_refl env) (sends_silent_trans env)|].
      intros tok.
      apply (sends_bind env 0 1); [keeps_steps (sends_refl env) (sends_silent_trans env)|].
      intros rt.
      apply (sends_bind env 0 1); [keeps_steps (sends_refl env) (sends_silent_trans env)|].
      intros ei.
      apply (sends_bind env 0 1); [auto with keeps|]. intros now.
      apply (sends_bind env 0 1); [keeps_steps (sends_refl env) (sends_silent_trans env)|].
      intros secs.
      apply (sends_bind env 0 1); [keeps_steps (sends_refl env) (sends_silent_trans env)|].
      intros lifetime.
      apply (sends_bind env 0 1); [keeps_steps (sends_refl env) (sends_silent_trans env)|].
      intros expires_at.
      apply (sends_bind env 1 0); [apply api_get_once|]. intros profile.
      keeps_steps (sends_refl env) (sends_silent_trans env).
    + apply (keeps_sends_le env 0 2); [lia|].
      keeps_steps (sends_refl env) (sends_silent_trans env).
  - intros id limit. destruct (app.api_top_tracks env id limit w) as [o w'] eqn:E.
    cbn [snd]. revert w o w' E.
    change (keeps (sends env 3) (app.api_top_tracks env id limit)).
    unfold app.api_top_tracks.
    apply (sends_bind env 0 3); [auto with keeps|]. intros _.
    apply (sends_bind env 0 3); [auto with keeps|]. intros [u|].
    + apply (sends_bind env 1 2); [apply ensure_valid_access_token_once|]. intros tok.
      apply (sends_bind env 1 1); [apply api_get_once|]. intros top.
      apply (sends_bind env 0 1); [keeps_steps (sends_refl env) (sends_silent_trans env)|].
      intros items.
      apply (sends_bind env 0 1); [keeps_steps (sends_refl env) (sends_silent_trans env)|].
      intros its.
      apply (sends_bind env 0 1).
      { apply keeps_for_enumerate;
          [apply sends_refl|apply sends_silent_trans|auto with keeps]. }
      intros _.
      apply (sends_bind env 0 1); [auto with keeps|]. intros _.
      apply (sends_bind env 1 0); [apply fetch_audio_features_once|]. intros _.
      keeps_steps (sends_refl env) (sends_silent_trans env).
    + apply (keeps_sends_le env 0 3); [lia|].
      keeps_steps (sends_refl env) (sends_silent_trans env).
Qed.

(** ** Storage only grows *)

Lemma extends_refl d : extends d d.
Proof. repeat split; exists []; now rewrite app_nil_r. Qed.

Lemma extends_trans d1 d2 d3 : extends d1 d2 -> extends d2 d3 -> extends d1 d3.
Proof.
  intros ((a & Ha) & (b & Hb) & (c & Hc)) ((a' & Ha') & (b' & Hb') & (c' & Hc')).
  repeat split; eexists.
  - rewrite Ha', Ha, <- app_assoc. reflexivity.
  - rewrite Hb', Hb, <- app_assoc. reflexivity.
  - rewrite Hc', Hc, <- app_assoc. reflexivity.
Qed.

Lemma extends_same_keys d d' :
  map u_id (users d') = map u_id (users d) ->
  map t_id (tracks d') = map t_id (tracks d) ->
  user_top_tracks d' = user_top_tracks d ->
  extends d d'.
Proof.
  intros H1 H2 H3. unfold extends. rewrite H1, H2, H3.
  repeat split; exists []; now rewrite app_nil_r.
Qed.

Lemma replace_user_pks u l : map u_id (Sql.replace_user u l) = map u_id l.
Proof.
  unfold Sql.replace_user. rewrite map_map. apply map_ext. intros r.
  destruct (u_id r =? u_id u) eqn:E; [|reflexivity]. apply Z.eqb_eq in E. congruence.
Qed.

Lemma replace_track_pks t l : map t_id (Sql.replace_track t l) = map t_id l.
Proof.
  unfold Sql.replace_track. rewrite map_map. apply map_ext. intros r.
  destruct (t_id r =? t_id t) eqn:E; [|reflexivity]. apply Z.eqb_eq in E. congruence.
Qed.

Lemma append_only_refl w : append_only w w.
Proof. intros H. split; [exact H|apply extends_refl]. Qed.

Lemma append_only_trans a b c : append_only a b -> append_only b c -> append_only a c.
Proof.
  intros Hab Hbc Ha. destruct (Hab Ha) as [Hb Eab]. destruct (Hbc Hb) as [Hc Ebc].
  split; [exact Hc|]. eapply extends_trans; eassumption.
Qed.

(** A step that leaves the database alone and lets the session grow. *)
Lemma append_only_session w w' :
  db w' = db w -> extends (sess w) (sess w') -> append_only w w'.
Proof.
  intros Hdb Hs H. rewrite Hdb. split; [|apply extends_refl].
  eapply extends_trans; eassumption.
Qed.

Ltac session_step :=
  let w := fresh "w" in let o := fresh "o" in let w' := fresh "w'" in
  let H := fresh "H" in
  intros w o w' H;
  cbv beta iota delta
      [Sql.set_sess Sql.mark_user Sql.mark_track Sql.flush
       Sql.bindable Sql.first_user Sql.first_track Sql.assign_user Sql.assign_track
       Sql.add_user Sql.add_track Sql.add_user_top_track
       utcnow requests_send raise_for_status json bind ret raise lift] in H;
  repeat match type of H with
         | context [match ?x with _ => _ end] =>
             lazymatch x with
             | context [match _ with _ => _ end] => fail
             | _ => destruct x
             end
         end;
  injection H as _ <-;
  (apply append_only_session; [reflexivity|]);
  cbn [sess users tracks user_top_tracks];
  first [ apply extends_refl
        | (apply extends_same_keys; cbn [users tracks user_top_tracks];
           rewrite ?replace_user_pks, ?replace_track_pks; reflexivity)
        | (repeat split; cbn [users tracks user_top_tracks]; rewrite ?map_app;
           first [ eexists; reflexivity | exists []; now rewrite app_nil_r ]) ].

Lemma utcnow_append_only env : keeps append_only (utcnow env).
Proof. session_step. Qed.
Lemma requests_send_append_only env rq : keeps append_only (requests_send env rq).
Proof. session_step. Qed.
Lemma raise_for_status_append_only r : keeps append_only (raise_for_status r).
Proof. session_step. Qed.
Lemma json_append_only r : keeps append_only (json r).
Proof. session_step. Qed.
Lemma first_user_append_only v : keeps append_only (Sql.first_user v).
Proof. session_step. Qed.
Lemma first_track_append_only v : keeps append_only (Sql.first_track v).
Proof. session_step. Qed.
Lemma assign_user_append_only u : keeps append_only (Sql.assign_user u).
Proof. session_step. Qed.
Lemma assign_track_append_only t : keeps append_only (Sql.assign_track t).
Proof. session_step. Qed.
Lemma add_track_append_only mk : keeps append_only (Sql.add_track mk).
Proof. session_step. Qed.
Lemma add_user_top_track_append_only mk : keeps append_only (Sql.add_user_top_track mk).
Proof. session_step. Qed.

Lemma commit_append_only : keeps append_only Sql.commit.
Proof.
  intros w o w' H. unfold Sql.commit, bind, Sql.flush in H.
  destruct (Sql.pending_error w); injection H as _ <-.
  - apply append_only_refl.
  - intros Hs. cbn [db sess]. split; [apply extends_refl|exact Hs].
Qed.

Lemma add_in_second_session_append_only u : keeps append_only (Sql.add_in_second_session u).
Proof. apply keeps_raise, append_only_refl. Qed.

#[local] Hint Resolve utcnow_append_only requests_send_append_only
  raise_for_status_append_only json_append_only first_user_append_only
  first_track_append_only assign_user_append_only assign_track_append_only
  add_track_append_only add_user_top_track_append_only commit_append_only
  add_in_second_session_append_only : keeps.

Lemma rest_of_top_tracks_append_only env id limit :
  keeps append_only
    (user <- Sql.first_user (PStr id) ;;
     match user with
     | None => raise (HTTPException 404 "user not found")
     | Some user =>
         access_token <- app.ensure_valid_access_token env user ;;
         top_tracks_json <- backend.spotify_client.get_user_top_tracks env access_token limit ;;
         items <- lift (Py.get top_tracks_json "items" (PList [])) ;;
         items_iter <- lift (Py.iter items) ;;
         for_enumerate 0 items_iter (app.store_item env user) ;;;
         Sql.commit ;;;
         app.fetch_audio_features env access_token items_iter ;;;
         n <- lift (Py.len items) ;;
         ret (PDict [ ("fetched", PInt n) ])
     end).
Proof.
  apply (keeps_bind _ append_only_trans); [auto with keeps|]. intros [u|].
  2:{ apply (keeps_raise _ append_only_refl). }
  apply (keeps_bind _ append_only_trans).
  { unfold app.ensure_valid_access_token, app.token_is_stale, app.refresh_and_persist,
      backend.spotify_client.refresh_access_token.
    keeps_steps append_only_refl append_only_trans. }
  intros tok. apply (keeps_bind _ append_only_trans).
  { unfold backend.spotify_client.get_user_top_tracks, backend.spotify_client.api_get.
    keeps_steps append_only_refl append_only_trans. }
  intros top.
  apply (keeps_bind _ append_only_trans); [apply (keeps_lift _ append_only_refl)|].
  intros items.
  apply (keeps_bind _ append_only_trans); [apply (keeps_lift _ append_only_refl)|].
  intros its. apply (keeps_bind _ append_only_trans).
  { apply keeps_for_enumerate; [apply append_only_refl|apply append_only_trans|].
    intros i x. unfold app.store_item. keeps_steps append_only_refl append_only_trans. }
  intros _. apply (keeps_bind _ append_only_trans); [auto with keeps|]. intros _.
  apply (keeps_bind _ append_only_trans).
  { unfold app.fetch_audio_features, app.store_audio_feature,
      backend.spotify_client.get_audio_features, backend.spotify_client.api_get.
    keeps_steps append_only_refl append_only_trans. }
  intros _. keeps_steps append_only_refl append_only_trans.
Qed.

(** X7. The top-tracks handler only ever adds to storage. However it ends
    (returned value, 404, a failure of the provider or of a later stage),
    the ranking rows from before the request are still there, in place and
    unchanged, followed by the new ones, and no user row or catalog row has
    been removed or has changed its primary key. *)
Theorem api_top_tracks_only_adds (env : Env) (id : string) (limit : Z) (w : World) :
  extends (db w) (db (snd (app.api_top_tracks env id limit w))).
Proof.
  destruct (app.api_top_tracks env id limit w) as [o w'] eqn:E. cbn [snd].
  unfold app.api_top_tracks in E. unfold bind at 1 in E. unfold Sql.get_db in E.
  change (mkWorld (db w) (db w) [] [] (sent w) (ticks w)) with (session_opened w) in E.
  apply (rest_of_top_tracks_append_only env id limit) in E.
  destruct (E (extends_refl _)) as [_ H]. exact H.
Qed.

(** ** The callback *)

Lemma same_db_refl w : same_db w w.
Proof. reflexivity. Qed.

Lemma same_db_trans a b c : same_db a b -> same_db b c -> same_db a c.
Proof. unfold same_db. congruence. Qed.

Ltac same_db_step :=
  let w := fresh "w" in let o := fresh "o" in let w' := fresh "w'" in
  let H := fresh "H" in
  intros w o w' H;
  cbv beta iota delta
      [Sql.set_sess Sql.mark_user Sql.mark_track Sql.flush Sql.get_db
       Sql.bindable Sql.first_user Sql.first_track Sql.assign_user Sql.assign_track
       Sql.add_user Sql.add_track Sql.add_user_top_track
       utcnow requests_send raise_for_status json bind ret raise lift] in H;
  repeat match type of H with
         | context [match ?x with _ => _ end] =>
             lazymatch x with
             | context [match _ with _ => _ end] => fail
             | _ => destruct x
             end
         end;
  injection H as _ <-; reflexivity.

Lemma utcnow_same_db env : keeps same_db (utcnow env).
Proof. same_db_step. Qed.
Lemma requests_send_same_db env rq : keeps same_db (requests_send env rq).
Proof. same_db_step. Qed.
Lemma raise_for_status_same_db r : keeps same_db (raise_for_status r).
Proof. same_db_step. Qed.
Lemma json_same_db r : keeps same_db (json r).
Proof. same_db_step. Qed.
Lemma get_db_same_db : keeps same_db Sql.get_db.
Proof. same_db_step. Qed.
Lemma first_user_same_db v : keeps same_db (Sql.first_user v).
Proof. same_db_step. Qed.
Lemma assign_user_same_db u : keeps same_db (Sql.assign_user u).
Proof. same_db_step. Qed.
Lemma add_user_same_db mk : keeps same_db (Sql.add_user mk).
Proof. same_db_step. Qed.

#[local] Hint Resolve utcnow_same_db requests_send_same_db raise_for_status_same_db
  json_same_db get_db_same_db first_user_same_db assign_user_same_db add_user_same_db
  : keeps.

Lemma exchange_code_for_token_same_db env code :
  keeps same_db (backend.spotify_client.exchange_code_for_token env code).
Proof.
  unfold backend.spotify_client.exchange_code_for_token.
  keeps_steps same_db_refl same_db_trans.
Qed.

Lemma api_get_same_db env path token params :
  keeps same_db (backend.spotify_client.api_get env path token params).
Proof.
  unfold backend.spotify_client.api_get. keeps_steps same_db_refl same_db_trans.
Qed.

#[local] Hint Resolve exchange_code_for_token_same_db api_get_same_db : keeps.

Lemma raise_keeps_db_bind {A B} (m : M A) (k : A -> M B) :
  keeps same_db m -> (forall a, raise_keeps_db (k a)) -> raise_keeps_db (bind m k).
Proof.
  intros Hm Hk w e w'. unfold bind. destruct (m w) as [[a|e1] w1] eqn:E; intros H.
  - rewrite (Hk a _ _ _ H). eapply Hm, E.
  - injection H as _ <-. eapply Hm, E.
Qed.

Lemma raise_keeps_db_raise {A} (e : exn) : raise_keeps_db (@raise A e).
Proof. intros w e' w' [= _ <-]. reflexivity. Qed.

Lemma raise_keeps_db_commit {A} (v : A) : raise_keeps_db (Sql.commit ;;; ret v).
Proof.
  intros w e w'. unfold Sql.commit, bind, Sql.flush, ret.
  destruct (Sql.pending_error w); [|discriminate]. now intros [= _ <-].
Qed.

(** X8. The callback writes all or nothing: whenever it raises (no code,
    a failed exchange or profile call, a missing field, a refused flush)
    the database is exactly the one from before the request. *)
Theorem auth_callback_raise_keeps_database
        (env : Env) (code state : option string) (w : World) (e : exn) (w' : World) :
  app.auth_callback env code state w = (Raise e, w') -> db w' = db w.
Proof.
  revert w e w'. change (raise_keeps_db (app.auth_callback env code state)).
  unfold app.auth_callback. destruct code as [code|]; [|apply raise_keeps_db_raise].
  unfold backend.spotify_client.get_user_profile. cbv zeta.
  repeat (apply raise_keeps_db_bind;
          [solve [keeps_steps same_db_refl same_db_trans]|intro]).
  apply raise_keeps_db_commit.
Qed.

Lemma auth_callback_raise_keeps_database_witness :
  db (snd (app.auth_callback Fixture.env_unauthorized (Some "c") None
             (Fixture.world_of Fixture.alice_valid)))
  = db (Fixture.world_of Fixture.alice_valid).
Proof.
  refine (auth_callback_raise_keeps_database Fixture.env_unauthorized (Some "c") None
            (Fixture.world_of Fixture.alice_valid) _ _ _).
  vm_compute. reflexivity.
Defined.

(** ** The callback that returns *)

Lemma first_user_Ok v w r w' :
  Sql.first_user v w = (Ok r, w') ->
  w' = w /\ bindable_value v
  /\ r = find (fun u => Sql.eq (spotify_user_id u) v) (users (sess w)).
Proof.
  unfold Sql.first_user. intros H.
  apply bind_Ok_inv in H as ([] & w1 & Hf & H). apply flush_Ok in Hf. subst w1.
  apply bind_Ok_inv in H as ([] & w1 & Hb & H). apply bindable_Ok in Hb as [Hb ->].
  injection H as <- <-. auto.
Qed.

Lemma commit_Ok_checked w w' : Sql.commit w = (Ok tt, w') -> Sql.pending_error w = None.
Proof.
  unfold Sql.commit, Sql.flush, bind.
  destruct (Sql.pending_error w); [discriminate|reflexivity].
Qed.

Lemma first_error_none l x : Sql.first_error l = None -> In x l -> x = None.
Proof.
  induction l as [|[e|] l IH]; cbn [Sql.first_error In]; [tauto|discriminate|].
  intros H [<-|Hin]; auto.
Qed.

(** A changed row of the session that a commit let through passed the
    column checks. *)
Lemma committed_row_checked w u :
  Sql.pending_error w = None ->
  In u (users (sess w)) -> Sql.mem (u_id u) (dirty_users w) = true ->
  Sql.check_user u = None.
Proof.
  unfold Sql.pending_error. intros H Hin Hd.
  apply (first_error_none _ _ H). apply in_or_app. left.
  apply in_map. apply filter_In. auto.
Qed.

Lemma replace_user_In u r l :
  In r l -> u_id r = u_id u -> In u (Sql.replace_user u l).
Proof.
  intros Hin Hpk. unfold Sql.replace_user.
  apply in_map_iff. exists r. rewrite Hpk, Z.eqb_refl. auto.
Qed.

Lemma check_text_required v : Sql.check_text false v = None -> exists s, v = PStr s.
Proof. destruct v; cbn; try discriminate. eauto. Qed.

Lemma check_user_tokens u :
  Sql.check_user u = None ->
  (exists a, access_token u = PStr a) /\ (exists r, refresh_token u = PStr r).
Proof.
  unfold Sql.check_user. intros H.
  split; apply check_text_required; apply (first_error_none _ _ H); cbn [In]; auto.
Qed.

(** What a callback that returns has read and written. *)
Lemma auth_callback_Ok env code state w v w' :
  app.auth_callback env code state w = (Ok v, w') ->
  exists c token_json profile access refresh expires_in seconds sid dname,
    code = Some c
    /\ fst (backend.spotify_client.exchange_code_for_token env c w) = Ok token_json
    /\ Py.getitem token_json "access_token" = Ok access
    /\ Py.get token_json "refresh_token" PNone = Ok refresh
    /\ Py.get token_json "expires_in" (PInt 3600) = Ok expires_in
    /\ Py.int env expires_in = Ok seconds
    /\ Py.getitem profile "id" = Ok sid
    /\ Py.get profile "display_name" PNone = Ok dname
    /\ v = PDict [ ("msg", PStr "auth success"); ("spotify_user_id", sid) ]
    /\ tracks (db w') = tracks (db w)
    /\ user_top_tracks (db w') = user_top_tracks (db w)
    /\ bindable_value sid
    /\ let expiry := utcnow_at env (ticks w) + seconds * 1000000 in
       let found := find (fun u => Sql.eq (spotify_user_id u) sid) (users (db w)) in
       let row :=
         match found with
         | Some u => mkUser (u_id u) (spotify_user_id u) (display_name u) access
                            (Py.or refresh (refresh_token u)) (Some expiry)
         | None => mkUser (Sql.next_pk (map u_id (users (db w)))) sid dname access refresh
                          (Some expiry)
         end in
       Sql.check_user row = None
       /\ users (db w')
          = match found with
            | Some _ => Sql.replace_user row (users (db w))
            | None => (users (db w) ++ [ row ])%list
            end.
Proof.
  unfold app.auth_callback. destruct code as [c|]; [|discriminate]. intros H.
  apply bind_Ok_inv in H as (tj & w1 & Hx & H).
  pose proof (exchange_code_for_token_same_db env c _ _ _ Hx) as Hdb1.
  assert (Ht1 : ticks w1 = ticks w).
  { clear -Hx. unfold backend.spotify_client.exchange_code_for_token in Hx.
    apply bind_Ok_inv in Hx as (r & w2 & Hs & Hx). injection Hs as _ <-.
    apply bind_Ok_inv in Hx as ([] & w3 & Hr & Hx).
    unfold raise_for_status in Hr. destruct (ok r); [|discriminate]. injection Hr as <-.
    unfold json in Hx. destruct (json_body r); [|discriminate]. now injection Hx as _ <-. }
  apply bind_Ok_inv in H as (access & w2 & H1 & H). apply lift_inv in H1 as [Hacc ->].
  apply bind_Ok_inv in H as (refresh & w2 & H1 & H). apply lift_inv in H1 as [Href ->].
  apply bind_Ok_inv in H as (ei & w2 & H1 & H). apply lift_inv in H1 as [Hei ->].
  apply bind_Ok_inv in H as (now & w2 & Hnow & H). injection Hnow as <- <-.
  apply bind_Ok_inv in H as (secs & w2 & H1 & H). apply lift_inv in H1 as [Hsecs ->].
  apply bind_Ok_inv in H as (life & w2 & H1 & H). apply lift_inv in H1 as [Hlife ->].
  apply bind_Ok_inv in H as (expiry & w2 & H1 & H). apply lift_inv in H1 as [Hadd ->].
  symmetry in Hlife, Hadd.
  apply timedelta_seconds_Ok in Hlife. apply datetime_add_Ok in Hadd. subst life expiry.
  apply bind_Ok_inv in H as (profile & w2 & Hp & H).
  unfold backend.spotify_client.get_user_profile in Hp.
  pose proof (api_get_same_db env _ _ _ _ _ _ Hp) as Hdb2.
  unfold same_db in Hdb1, Hdb2. cbn [db] in Hdb2. rewrite Hdb1 in Hdb2.
  apply bind_Ok_inv in H as (sid & w3 & H1 & H). apply lift_inv in H1 as [Hsid ->].
  apply bind_Ok_inv in H as (dname & w3 & H1 & H). apply lift_inv in H1 as [Hdn ->].
  apply bind_Ok_inv in H as ([] & w3 & Hopen & H). injection Hopen as <-.
  apply bind_Ok_inv in H as (found & w3 & Hq & H).
  apply first_user_Ok in Hq as (-> & Hbind & ->). cbn [sess db] in H. rewrite Hdb2 in H.
  apply bind_Ok_inv in H as ([] & w4 & Hup & H).
  apply bind_Ok_inv in H as ([] & w5 & Hc & H).
  pose proof (commit_Ok_checked _ _ Hc) as Hchk. apply commit_Ok in Hc.
  injection H as <- <-. subst w5. cbn [db].
  exists c, tj, profile, access, refresh, ei, secs, sid, dname.
  rewrite Hx. rewrite Ht1 in Hup. cbn [fst]. repeat (split; [solve [auto | symmetry; assumption]|]).
  cbv zeta.
  destruct (find _ (users (db w))) as [u|] eqn:Hfind.
  - apply bind_Ok_inv in Hup as ([] & w6 & H1 & Hup). injection H1 as <-.
    apply bind_Ok_inv in Hup as ([] & w6 & H1 & Hup). injection H1 as <-.
    injection Hup as <-. cbn [sess users tracks user_top_tracks] in *.
    rewrite !replace_user_again in * by reflexivity.
    split; [reflexivity|]. split; [reflexivity|]. split; [exact Hbind|].
    split; [|reflexivity].
    apply (committed_row_checked _ _ Hchk).
    + cbn [sess users]. apply find_some in Hfind as [Hin _].
      eapply replace_user_In; [exact Hin|reflexivity].
    + cbn. now rewrite Z.eqb_refl.
  - apply bind_Ok_inv in Hup as (u & w6 & H1 & Hup). injection Hup as <-.
    injection H1 as _ <-. cbn [sess users tracks user_top_tracks db] in *.
    split; [reflexivity|]. split; [reflexivity|]. split; [exact Hbind|].
    split; [|reflexivity].
    apply (committed_row_checked _ _ Hchk).
    + cbn [sess users]. apply in_or_app. right. now left.
    + cbn. now rewrite Z.eqb_refl.
Qed.



(** X10. A callback that returns has stored a user row whose access token
    and refresh token are texts and whose expiry is set, under the external
    user id the result names: the NOT NULL columns of the model turn a
    token answer without a refresh token for a new user, or with a null
    access token, into a failure of the commit. *)
Theorem auth_callback_stores_complete_credentials
        (env : Env) (code state : option string) (w : World) (v : pyval) (w' : World) :
  app.auth_callback env code state w = (Ok v, w') ->
  exists u a r e,
    In u (users (db w'))
    /\ v = PDict [ ("msg", PStr "auth success"); ("spotify_user_id", spotify_user_id u) ]
    /\ access_token u = PStr a
    /\ refresh_token u = PStr r
    /\ token_expires u = Some e.
Proof.
  intros H.
  destruct (auth_callback_Ok _ _ _ _ _ _ H)
    as (c & tj & p & a & r & ei & s & sid & dn & _ & _ & _ & _ & _ & _ & _ & _
        & Hv & _ & _ & Hb & Hu).
  cbv zeta in Hu. destruct Hu as [Hchk Hu].
  apply check_user_tokens in Hchk as [[a' Ha] [r' Hr]].
  destruct (find _ (users (db w))) as [u|] eqn:Hfind;
    (eexists; exists a', r'; eexists;
     split; [|split; [|split; [exact Ha|split; [exact Hr|reflexivity]]]]).
  - rewrite Hu. apply find_some in Hfind as [Hin _].
    eapply replace_user_In; [exact Hin|reflexivity].
  - cbn [spotify_user_id]. apply find_some in Hfind as [_ Heq].
    now rewrite (bindable_eq_true _ _ Hb Heq).
  - rewrite Hu. apply in_or_app. right. now left.
  - exact Hv.
Qed.

Lemma auth_callback_stores_complete_credentials_witness :
  exists u, In u (users (db (snd (app.auth_callback Fixture.env_ok (Some "c") None
                                     (Fixture.world_of Fixture.alice_expired)))))
            /\ access_token u = PStr "fresh".
Proof.
  assert (E : app.auth_callback Fixture.env_ok (Some "c") None
                (Fixture.world_of Fixture.alice_expired)
              = (Ok (PDict [ ("msg", PStr "auth success");
                             ("spotify_user_id", PStr "alice") ]),
                 snd (app.auth_callback Fixture.env_ok (Some "c") None
                        (Fixture.world_of Fixture.alice_expired))))
    by (vm_compute; reflexivity).
  destruct (auth_callback_stores_complete_credentials _ _ _ _ _ _ E)
    as (u & a & r & e & Hin & _ & Ha & _).
  exists u. split; [exact Hin|].
  vm_compute in Hin. destruct Hin as [<-|[]]. reflexivity.
Defined.

(** ** The top-tracks handler at its edges *)

Lemma api_top_tracks_eq env id limit w :
  app.api_top_tracks env id limit w
  = match user_named id (db w) with
    | None => (Raise (HTTPException 404 "user not found"), session_opened w)
    | Some u =>
        (access_token <- app.ensure_valid_access_token env u ;;
         top_tracks_json <- backend.spotify_client.get_user_top_tracks env access_token limit ;;
         items <- lift (Py.get top_tracks_json "items" (PList [])) ;;
         items_iter <- lift (Py.iter items) ;;
         for_enumerate 0 items_iter (app.store_item env u) ;;;
         Sql.commit ;;;
         app.fetch_audio_features env access_token items_iter ;;;
         n <- lift (Py.len items) ;;
         ret (PDict [ ("fetched", PInt n) ])) (session_opened w)
    end.
Proof.
  unfold app.api_top_tracks. unfold bind at 1. unfold Sql.get_db.
  change (mkWorld (db w) (db w) [] [] (sent w) (ticks w)) with (session_opened w).
  unfold bind at 1. rewrite first_user_opened.
  destruct (user_named id (db w)); reflexivity.
Qed.

(** X11. The top-tracks handler answers an external user id that is not
    stored with a 404: no call is sent and the database is left alone. *)
Theorem api_top_tracks_unknown_user (env : Env) (id : string) (limit : Z) (w : World) :
  user_named id (db w) = None ->
  let r := app.api_top_tracks env id limit w in
  fst r = Raise (HTTPException 404 "user not found")
  /\ app.response_status (fst r) = 404
  /\ sent (snd r) = sent w
  /\ db (snd r) = db w.
Proof.
  intros H. cbv zeta. rewrite api_top_tracks_eq, H. repeat split.
Qed.

Lemma api_top_tracks_unknown_user_witness :
  app.response_status
    (fst (app.api_top_tracks Fixture.env_ok "bob" 50 (Fixture.world_of Fixture.alice_valid)))
  = 404.
Proof.
  apply (api_top_tracks_unknown_user Fixture.env_ok "bob" 50
           (Fixture.world_of Fixture.alice_valid)).
  reflexivity.
Defined.

(** After a token manager call that returns, on a session without changed
    rows, the session flushes. *)
Lemma ensure_valid_access_token_flushes env u w tok w1 :
  app.ensure_valid_access_token env u w = (Ok tok, w1) ->
  dirty_users w = [] -> dirty_tracks w = [] ->
  Sql.pending_error w1 = None.
Proof.
  intros H Hdu Hdt. apply ensure_valid_access_token_Ok in H as (_ & _ & ->).
  apply pending_error_clean; unfold after_test; destruct (token_expires u); assumption.
Qed.

(** X12. A provider whose list of top items is empty: whenever the token
    manager returns, the handler returns [{"fetched": 0}], the top-items
    call is the only call it sends after the token manager's, so the
    feature call is skipped, and the database is the one the token manager
    left. *)
Theorem api_top_tracks_empty_list
        (env : Env) (id : string) (limit : Z) (w : World) (u : User) (tok : pyval)
        (w1 : World) :
  (forall history tok,
      exists resp top,
        send env history (top_tracks_request tok limit) = Ok resp
        /\ ok resp = true /\ json_body resp = Some top
        /\ Py.get top "items" (PList []) = Ok (PList [])) ->
  user_named id (db w) = Some u ->
  app.ensure_valid_access_token env u (session_opened w) = (Ok tok, w1) ->
  let r := app.api_top_tracks env id limit w in
  fst r = Ok (PDict [ ("fetched", PInt 0) ])
  /\ sent (snd r) = (sent w1 ++ [ top_tracks_request tok limit ])%list
  /\ users (db (snd r)) = users (db w1)
  /\ tracks (db (snd r)) = tracks (db w)
  /\ user_top_tracks (db (snd r)) = user_top_tracks (db w).
Proof.
  intros Hfetch Hu Htok. cbv zeta.
  pose proof (ensure_valid_access_token_flushes _ _ _ _ _ Htok eq_refl eq_refl) as Hflush.
  pose proof (ensure_valid_access_token_same_catalog env u _ _ _ Htok) as (Ht & Hr & _ & _).
  pose proof (ensure_valid_access_token_users env u _ _ _ Htok) as Husers.
  cbn [session_opened sess db] in Ht, Hr, Husers.
  destruct (Hfetch (sent w1) tok) as (resp & top & Hs & Hok & Hj & Hitems).
  assert (E : app.api_top_tracks env id limit w
              = (Ok (PDict [ ("fetched", PInt 0) ]),
                 mkWorld (sess w1) (sess w1) [] []
                         (sent w1 ++ [ top_tracks_request tok limit ]) (ticks w1))).
  { rewrite api_top_tracks_eq, Hu. rewrite (bind_Ok _ _ _ _ _ Htok).
    unfold backend.spotify_client.get_user_top_tracks, backend.spotify_client.api_get.
    change (mkRequest GET _ (Bearer tok) _) with (top_tracks_request tok limit).
    unfold bind at 1. unfold bind at 1. unfold requests_send at 1. rewrite Hs.
    rewrite Hok. cbn [negb]. rewrite Hj. unfold bind at 1, ret at 1, lift at 1.
    rewrite Hitems.
    unfold bind, lift, ret, Sql.commit, Sql.flush, app.fetch_audio_features.
    cbn [Py.iter for_enumerate comprehension]. unfold bind, ret.
    unfold Sql.pending_error in *. cbn [sess dirty_users dirty_tracks].
    rewrite Hflush. reflexivity. }
  rewrite E. cbn [fst snd sent db]. repeat split; auto.
  destruct Husers as [-> ->]. reflexivity.
Qed.

Lemma api_top_tracks_empty_list_witness :
  fst (app.api_top_tracks env_no_items "alice" 50 (Fixture.world_of Fixture.alice_valid))
  = Ok (PDict [ ("fetched", PInt 0) ]).
Proof.
  assert (Hfetch : forall (history : list Request) (tok : pyval),
             exists resp top,
               send env_no_items history (top_tracks_request tok 50) = Ok resp
               /\ ok resp = true /\ json_body resp = Some top
               /\ Py.get top "items" (PList []) = Ok (PList [])).
  { intros history tok. eexists. eexists. repeat split. }
  apply (api_top_tracks_empty_list env_no_items "alice" 50
           (Fixture.world_of Fixture.alice_valid) Fixture.alice_valid (PStr "old")
           (snd (app.ensure_valid_access_token env_no_items Fixture.alice_valid
                   (session_opened (Fixture.world_of Fixture.alice_valid))))
           Hfetch eq_refl eq_refl).
Defined.

(** ** One feature record *)

Lemma find_replaced_track t af v ts :
  find (by_track_id v) ts = Some t ->
  find (by_track_id v) (Sql.replace_track (app.with_audio_features t af) ts)
  = Some (app.with_audio_features t af).
Proof.
  intros Hf.
  assert (Hm : by_track_id v (app.with_audio_features t af) = true)
    by (apply find_some in Hf as [_ Hf]; exact Hf).
  induction ts as [|r ts IH]; [discriminate|].
  cbn [find Sql.replace_track map] in *. cbn [t_id app.with_audio_features] in *.
  destruct (t_id r =? t_id t) eqn:Er.
  - now rewrite Hm.
  - destruct (by_track_id v r) eqn:E.
    + injection Hf as ->. rewrite Z.eqb_refl in Er. discriminate.
    + auto.
Qed.

Lemma replace_track_elsewhere t ts r :
  In r ts -> t_id r <> t_id t -> In r (Sql.replace_track t ts).
Proof.
  intros Hin Hpk. unfold Sql.replace_track. apply in_map_iff. exists r.
  apply Z.eqb_neq in Hpk. now rewrite Hpk.
Qed.

Lemma first_track_found v w :
  bindable_value v -> Sql.pending_error w = None ->
  Sql.first_track v w = (Ok (find (by_track_id v) (tracks (sess w))), w).
Proof.
  intros Hb Hflush. unfold Sql.first_track, Sql.flush, bind. rewrite Hflush.
  destruct Hb as [->|[s ->]]; reflexivity.
Qed.

(** X13. What the feature stage does with one record of the provider's
    list. A falsy record (a null for an unknown track) is skipped and the
    world is left as it is. For a truthy record whose ["id"] is a text or
    null, on a session that flushes: when no catalog row has that external
    id nothing changes; otherwise the record becomes the feature blob of
    the row the query finds, a later query for the id finds the row with
    the blob, the rows with another primary key and the primary keys are
    as before, and neither the users, the rankings nor the database are
    touched. *)
Theorem store_audio_feature_cases (af : pyval) (w : World) :
  (Py.truthy af = false -> app.store_audio_feature af w = (Ok tt, w))
  /\ forall sid,
       Py.truthy af = true ->
       Py.getitem af "id" = Ok sid ->
       bindable_value sid ->
       Sql.pending_error w = None ->
       match find (by_track_id sid) (tracks (sess w)) with
       | None => app.store_audio_feature af w = (Ok tt, w)
       | Some t =>
           exists w',
             app.store_audio_feature af w = (Ok tt, w')
             /\ find (by_track_id sid) (tracks (sess w'))
                = Some (app.with_audio_features t af)
             /\ (forall r, In r (tracks (sess w)) -> t_id r <> t_id t ->
                           In r (tracks (sess w')))
             /\ map t_id (tracks (sess w')) = map t_id (tracks (sess w))
             /\ users (sess w') = users (sess w)
             /\ user_top_tracks (sess w') = user_top_tracks (sess w)
             /\ db w' = db w
       end.
Proof.
  unfold app.store_audio_feature. split.
  - now intros ->.
  - intros sid -> Hid Hb Hflush. cbn [negb].
    rewrite Hid. rewrite (bind_Ok _ _ w sid w eq_refl).
    rewrite (bind_Ok _ _ _ _ _ (first_track_found sid w Hb Hflush)).
    destruct (find (by_track_id sid) (tracks (sess w))) as [t|] eqn:Hf; [|reflexivity].
    eexists. split; [reflexivity|]. cbn [sess tracks users user_top_tracks db].
    split; [now apply find_replaced_track|].
    split; [intros r Hin Hpk; now apply replace_track_elsewhere|].
    split; [apply replace_track_pks|]. repeat split.
Qed.

Lemma store_audio_feature_cases_witness :
  exists w',
    app.store_audio_feature (Fixture.feature "t1" 120) (world_with_track track_t1)
    = (Ok tt, w')
    /\ find (by_track_id (PStr "t1")) (tracks (sess w'))
       = Some (app.with_audio_features track_t1 (Fixture.feature "t1" 120)).
Proof.
  destruct (store_audio_feature_cases (Fixture.feature "t1" 120) (world_with_track track_t1))
    as [_ H].
  specialize (H (PStr "t1") eq_refl eq_refl (or_intror (ex_intro _ "t1" eq_refl)) eq_refl).
  cbn [find world_with_track sess tracks] in H.
  change (by_track_id (PStr "t1") track_t1) with true in H.
  destruct H as (w' & E & Hfind & _). exists w'. split; [exact E|exact Hfind].
Defined.
